(** * Asset reference reconciliation: the featured-image extractor and the
    Cloudinary auditor

    A shallow embedding of [scripts/extract-featured-images.py] and
    [scripts/audit-cloudinary-images.py], and the properties of the two
    pipelines that the design document states about them.

    Conventions of the embedding.
    - A Python [str] is a [list ascii]: one element per code point, for the
      code points below 256.  String literals are read through the coercion
      [list_ascii_of_string].
    - A Python value that may be [None] is an [option].
    - A [dict] whose iteration order is never observed is a [gmap]; the
      [defaultdict(list)] of the auditor, whose order is observed, is an
      association list in insertion order; a [set] is a [gset].
    - An exception is a value of [exn]; code that may raise returns an
      [outcome].
    - [print] calls write to the terminal only and are left out. *)

From Stdlib Require Import Ascii String.
From stdpp Require Import gmap list strings sorting.

Set Warnings "-register-all".

Coercion list_ascii_of_string : string >-> list.

Abbreviation str := (list ascii).

(** ** Python strings *)

Module PyStr.

Definition code (c : ascii) : nat := nat_of_ascii c.

Definition eqc (a b : ascii) : bool := Ascii.eqb a b.

(** [c.lower()] for the code points below 256 that [re.IGNORECASE] folds
    onto an ASCII letter: the letters A to Z. *)
Definition lower (c : ascii) : ascii :=
  if (65 <=? code c) && (code c <=? 90) then ascii_of_nat (code c + 32) else c.

(** [\d] of [re] on the code points below 256. *)
Definition is_digit (c : ascii) : bool := (48 <=? code c) && (code c <=? 57).

(** [\s] of [re] on the code points below 256: tab to carriage return, the
    four separators 28 to 31, the space, NEL and the no-break space. *)
Definition is_space (c : ascii) : bool :=
  ((9 <=? code c) && (code c <=? 13)) || ((28 <=? code c) && (code c <=? 32))
  || (code c =? 133) || (code c =? 160).

Definition slash : ascii := "/"%char.
Definition dot : ascii := "."%char.
Definition hyphen : ascii := "-"%char.
Definition newline : ascii := ascii_of_nat 10.

(** [c in s] for a one-character [c]. *)
Definition has_char (c : ascii) (s : str) : bool := existsb (eqc c) s.

(** [s[len(p):]] when [s.startswith(p)]. *)
Fixpoint strip_prefix (p s : str) : option str :=
  match p, s with
  | [], _ => Some s
  | a :: p', b :: s' => if eqc a b then strip_prefix p' s' else None
  | _ :: _, [] => None
  end.

(** The same, comparing the characters without their case. *)
Fixpoint strip_prefix_ci (p s : str) : option str :=
  match p, s with
  | [], _ => Some s
  | a :: p', b :: s' => if eqc (lower a) (lower b) then strip_prefix_ci p' s' else None
  | _ :: _, [] => None
  end.

Definition startswith (s p : str) : bool :=
  match strip_prefix p s with Some _ => true | None => false end.

(** [s.lower().endswith(p.lower())], on the letters A to Z. *)
Definition endswith_ci (s p : str) : bool :=
  match strip_prefix_ci (rev p) (rev s) with Some _ => true | None => false end.

(** [re.search] of a literal: the index of its leftmost occurrence. *)
Fixpoint find_sub (p s : str) : option nat :=
  match strip_prefix p s with
  | Some _ => Some 0
  | None => match s with
            | [] => None
            | _ :: s' => S <$> find_sub p s'
            end
  end.

(** [s.split(sep, maxsplit)] for a one-character separator; [maxsplit] is
    [None] for the default of no limit. *)
Fixpoint split (sep : ascii) (maxsplit : option nat) (s : str) : list str :=
  match s with
  | [] => [[]]
  | c :: s' =>
      if eqc c sep && negb (bool_decide (maxsplit = Some 0))
      then [] :: split sep (pred <$> maxsplit) s'
      else match split sep maxsplit s' with
           | piece :: pieces => (c :: piece) :: pieces
           | [] => [[c]]
           end
  end.

(** [l[-1]] of a list that is not empty, as [split] always returns. *)
Definition last_piece (l : list str) : str := List.last l [].

(** [s.lstrip(chars)], [s.rstrip(chars)] and [s.strip(chars)]. *)
Fixpoint lstrip (chars : str) (s : str) : str :=
  match s with
  | c :: s' => if has_char c chars then lstrip chars s' else s
  | [] => []
  end.

Definition rstrip (chars : str) (s : str) : str := rev (lstrip chars (rev s)).

Definition strip (chars : str) (s : str) : str := rstrip chars (lstrip chars s).

(** [$] of [re] without [re.MULTILINE]: at the end of the string, or just
    before a newline that is its last character. *)
Definition at_dollar (rest : str) : bool :=
  match rest with
  | [] => true
  | [c] => eqc c newline
  | _ => false
  end.

(** Truth value of a string: the empty string is false. *)
Definition truthy (s : str) : bool :=
  match s with [] => false | _ => true end.

End PyStr.

(** ** The canonical identifier of an attachment URL
    ([FeaturedImageExtractor.update_post], the lines that derive
    [public_id] from [thumbnail_url]) *)

Module Deriver.
Import PyStr.

Definition uploads_dir : str := "/wp-content/uploads/".

(** The five alternatives of the extension pattern, in its order. *)
Definition extensions : list str := ["jpg" : str; "jpeg" : str; "png" : str; "gif" : str; "webp" : str].

(** [r'/wp-content/uploads/(\d{4})/(\d{2})/([^/]+)$'] anchored at the front
    of [s]: the three groups.  The last group is greedy and cannot hold a
    slash, so it takes the rest of the string, which must then be at [$]:
    the match exists when the rest is not empty and has no slash. *)
Definition match_uploads_at (s : str) : option (str * str * str) :=
  match strip_prefix uploads_dir s with
  | Some (y1 :: y2 :: y3 :: y4 :: s1 :: m1 :: m2 :: s2 :: filename) =>
      if forallb is_digit [y1; y2; y3; y4] && eqc s1 slash
         && forallb is_digit [m1; m2] && eqc s2 slash
         && truthy filename && negb (has_char slash filename)
      then Some ([y1; y2; y3; y4], [m1; m2], filename)
      else None
  | _ => None
  end.

(** [re.search] of that pattern: the leftmost position where it matches. *)
Fixpoint re_search_uploads (s : str) : option (str * str * str) :=
  match match_uploads_at s with
  | Some groups => Some groups
  | None => match s with
            | [] => None
            | _ :: s' => re_search_uploads s'
            end
  end.

(** The first alternative of [(jpg|jpeg|png|gif|webp)$] that matches at the
    front of [t] without the case: what is left of [t] after it. *)
Fixpoint match_alternatives (exts : list str) (t : str) : option str :=
  match exts with
  | [] => None
  | e :: exts' =>
      match strip_prefix_ci e t with
      | Some rest => if at_dollar rest then Some rest else match_alternatives exts' t
      | None => match_alternatives exts' t
      end
  end.

(** [r'\.(jpg|jpeg|png|gif|webp)$'] with [re.IGNORECASE], anchored at the
    front of [s]: what is left of [s] after the match. *)
Definition match_ext_at (s : str) : option str :=
  match s with
  | c :: t => if eqc c dot then match_alternatives extensions t else None
  | [] => None
  end.

(** [re.sub(r'\.(jpg|jpeg|png|gif|webp)$', '', s, flags=re.IGNORECASE)].
    A match ends at [$], so what follows it is empty or the final newline,
    where the pattern cannot match again: it is copied as it is. *)
Fixpoint re_sub_ext (s : str) : str :=
  match match_ext_at s with
  | Some rest => rest
  | None => match s with
            | [] => []
            | c :: s' => c :: re_sub_ext s'
            end
  end.

(** The derivation of [public_id] from [thumbnail_url]. *)
Definition public_id (thumbnail_url : str) : str :=
  match re_search_uploads thumbnail_url with
  | Some (year, month, filename) =>
      let filename_no_ext := re_sub_ext filename in
      month ++ [slash] ++ filename_no_ext
  | None =>
      let filename := last_piece (split slash None thumbnail_url) in
      re_sub_ext filename
  end.

(** [e] is one of the five extensions, whatever its case. *)
Definition is_extension (e : str) : bool :=
  bool_decide (map lower e ∈ extensions).

(** [s] ends in a dot and one of the five extensions, whatever its case. *)
Definition has_extension (s : str) : bool :=
  existsb (fun x => endswith_ci s (dot :: x)) extensions.

(** [s] ends in two of them, one after the other. *)
Definition has_stacked_extensions (s : str) : bool :=
  existsb (fun x1 =>
    existsb (fun x2 => endswith_ci s (dot :: x1 ++ dot :: x2)) extensions)
    extensions.

(** The three last segments of a structured path: four digits, two digits
    and a file name. *)
Definition dated_segments (year month filename : str) : Prop :=
  length year = 4 ∧ forallb is_digit year = true ∧
  length month = 2 ∧ forallb is_digit month = true ∧
  filename ≠ [] ∧ has_char slash filename = false.

(** The shape [.../<4-digit-year>/<2-digit-month>/<filename>], under any
    directory. *)
Definition legacy_shape (url year month filename : str) : Prop :=
  dated_segments year month filename ∧
  ∃ pre, url = pre ++ [slash] ++ year ++ [slash] ++ month ++ [slash] ++ filename.

(** The same shape directly under the uploads directory. *)
Definition uploads_shape (url year month filename : str) : Prop :=
  dated_segments year month filename ∧
  ∃ pre, url = pre ++ uploads_dir ++ year ++ [slash] ++ month ++ [slash] ++ filename.

End Deriver.

(** ** Exceptions *)

Inductive exn : Type :=
  | TypeError
  | AttributeError
  | YAMLError
  | TransportError.

Inductive outcome (A : Type) : Type :=
  | Returned (a : A)
  | Raised (e : exn).
Arguments Returned {A} a.
Arguments Raised {A} e.

(** ** The parsed export ([xml.etree.ElementTree]) *)

Module Xml.
Import PyStr.

(** An element: its expanded tag, its [text] and its children in document
    order. *)
Inductive element : Type :=
  | Element (tag : str) (text : option str) (children : list element).

Definition tag (e : element) : str := let (t, _, _) := e in t.
Definition text (e : element) : option str := let (_, x, _) := e in x.
Definition children (e : element) : list element := let (_, _, c) := e in c.

Definition has_tag (t : str) (e : element) : bool := bool_decide (tag e = t).

(** [e.findall(t)] for a tag: the children of [e] with that tag. *)
Definition findall (t : str) (e : element) : list element :=
  List.filter (has_tag t) (children e).

(** [e.find(t)]: the first of them, or [None]. *)
Definition find (t : str) (e : element) : option element := head (findall t e).

(** Every element below [e], in document order. *)
Fixpoint descendants (e : element) : list element :=
  match e with
  | Element _ _ cs =>
      (fix below (l : list element) : list element :=
         match l with
         | [] => []
         | c :: l' => c :: descendants c ++ below l'
         end) cs
  end.

(** [e.findall('.//' + t)]. *)
Definition findall_below (t : str) (e : element) : list element :=
  List.filter (has_tag t) (descendants e).

(** The tags of the export, with the [wp] prefix expanded. *)
Definition wp (local : str) : str := ("{http://wordpress.org/export/1.2/}" : str) ++ local.

End Xml.

(** ** Front matter values ([yaml.safe_load]) *)

(** What [yaml.safe_load] can return, as far as [update_post] observes it:
    [None], a string, a sequence (or a set), a mapping in the order of the
    document, and any other scalar (a number, a boolean, a date, bytes), of
    which only the truth value is looked at. *)
Inductive yaml : Type :=
  | YNone
  | YStr (s : str)
  | YSeq (items : list yaml)
  | YMap (entries : list (yaml * yaml))
  | YScalar (truth : bool).

Module Yaml.
Import PyStr.

(** [v == s] for a string [s]. *)
Definition is_str (s : str) (v : yaml) : bool :=
  match v with
  | YStr s' => bool_decide (s' = s)
  | _ => false
  end.

(** [bool(v)]. *)
Definition truthy (v : yaml) : bool :=
  match v with
  | YNone => false
  | YStr s => PyStr.truthy s
  | YSeq items => match items with [] => false | _ => true end
  | YMap entries => match entries with [] => false | _ => true end
  | YScalar truth => truth
  end.

(** [key in d] for a [dict] and a string key. *)
Definition has_key (key : str) (entries : list (yaml * yaml)) : bool :=
  existsb (fun kv => is_str key kv.1) entries.

(** [key in v]: the keys of a mapping, the items of a sequence, the
    substrings of a string; the other values are not iterable. *)
Definition contains (key : str) (v : yaml) : outcome bool :=
  match v with
  | YMap entries => Returned (has_key key entries)
  | YSeq items => Returned (existsb (is_str key) items)
  | YStr s => Returned (bool_decide (is_Some (find_sub key s)))
  | YNone | YScalar _ => Raised TypeError
  end.

(** [d.get(key, default)] for a [dict]. *)
Fixpoint dict_get (key : str) (dflt : yaml) (entries : list (yaml * yaml)) : yaml :=
  match entries with
  | [] => dflt
  | (k, v) :: entries' => if is_str key k then v else dict_get key dflt entries'
  end.

(** [d[key] = value] for a [dict]: the value of a key that is there is
    replaced where it stands, a new key goes to the end. *)
Fixpoint dict_set (key : str) (value : yaml) (entries : list (yaml * yaml))
  : list (yaml * yaml) :=
  match entries with
  | [] => [(YStr key, value)]
  | (k, v) :: entries' =>
      if is_str key k then (k, value) :: entries'
      else (k, v) :: dict_set key value entries'
  end.

End Yaml.

(** ** The featured-image extractor ([FeaturedImageExtractor]) *)

(** [post_path]: the two attributes of the path that [update_post] reads. *)
Record Path : Type := { name : str; stem : str }.

Record Extractor : Type := {
  attachments : gmap (option str) (option str);
  post_thumbnails : gmap (option str) (option str);
  posts_found : nat;
  posts_updated : nat;
  posts_skipped : nat;
  errors : list (str * exn)
}.

Module Extractor.
Import PyStr Xml.

(** [__init__]. *)
Definition init : Extractor :=
  {| attachments := ∅; post_thumbnails := ∅;
     posts_found := 0; posts_updated := 0; posts_skipped := 0; errors := [] |}.

Definition set_attachments (f : gmap (option str) (option str) → gmap (option str) (option str))
  (self : Extractor) : Extractor :=
  {| attachments := f (attachments self); post_thumbnails := post_thumbnails self;
     posts_found := posts_found self; posts_updated := posts_updated self;
     posts_skipped := posts_skipped self; errors := errors self |}.

Definition set_post_thumbnails (f : gmap (option str) (option str) → gmap (option str) (option str))
  (self : Extractor) : Extractor :=
  {| attachments := attachments self; post_thumbnails := f (post_thumbnails self);
     posts_found := posts_found self; posts_updated := posts_updated self;
     posts_skipped := posts_skipped self; errors := errors self |}.

Definition found (self : Extractor) : Extractor :=
  {| attachments := attachments self; post_thumbnails := post_thumbnails self;
     posts_found := S (posts_found self); posts_updated := posts_updated self;
     posts_skipped := posts_skipped self; errors := errors self |}.

Definition updated (self : Extractor) : Extractor :=
  {| attachments := attachments self; post_thumbnails := post_thumbnails self;
     posts_found := posts_found self; posts_updated := S (posts_updated self);
     posts_skipped := posts_skipped self; errors := errors self |}.

Definition skipped (self : Extractor) : Extractor :=
  {| attachments := attachments self; post_thumbnails := post_thumbnails self;
     posts_found := posts_found self; posts_updated := posts_updated self;
     posts_skipped := S (posts_skipped self); errors := errors self |}.

Definition add_error (err : str * exn) (self : Extractor) : Extractor :=
  {| attachments := attachments self; post_thumbnails := post_thumbnails self;
     posts_found := posts_found self; posts_updated := posts_updated self;
     posts_skipped := posts_skipped self; errors := errors self ++ [err] |}.

(** The name of the metadata entry that marks the featured image. *)
Definition thumbnail_key : str := "_thumbnail_id".

(** The body of the loop over the [wp:postmeta] entries of a post. *)
Definition parse_postmeta (title post_name : option element)
  (thumbnails : gmap (option str) (option str)) (postmeta : element)
  : gmap (option str) (option str) :=
  match find (wp "meta_key") postmeta with
  | Some meta_key =>
      if bool_decide (text meta_key = Some thumbnail_key) then
        match find (wp "meta_value") postmeta, title with
        | Some meta_value, Some title =>
            let thumbnails :=
              match post_name with
              | Some post_name => <[text post_name := text meta_value]> thumbnails
              | None => thumbnails
              end in
            <[text title := text meta_value]> thumbnails
        | _, _ => thumbnails
        end
      else thumbnails
  | None => thumbnails
  end.

(** The value of a [wp:postmeta] entry that is a featured-image marker and
    has a [wp:meta_value] child: the text of that child. *)
Definition thumbnail_value (postmeta : element) : option (option str) :=
  match find (wp "meta_key") postmeta, find (wp "meta_value") postmeta with
  | Some meta_key, Some meta_value =>
      if bool_decide (text meta_key = Some thumbnail_key)
      then Some (text meta_value) else None
  | _, _ => None
  end.

(** The body of the loop of [parse_xml] over the items. *)
Definition parse_item (self : Extractor) (item : element) : Extractor :=
  match find (wp "post_type") item with
  | None => self
  | Some post_type =>
      let post_type_text := text post_type in
      if bool_decide (post_type_text = Some ("attachment" : str)) then
        match find (wp "post_id") item, find (wp "attachment_url") item with
        | Some post_id, Some attachment_url =>
            set_attachments <[text post_id := text attachment_url]> self
        | _, _ => self
        end
      else if bool_decide (post_type_text = Some ("post" : str)) then
        let title := find "title" item in
        let post_name := find (wp "post_name") item in
        set_post_thumbnails
          (fun thumbnails =>
             fold_left (parse_postmeta title post_name)
               (findall (wp "postmeta") item) thumbnails)
          self
      else self
  end.

(** [parse_xml], from the root of the parsed export. *)
Definition parse_xml (root : element) (self : Extractor) : Extractor :=
  fold_left parse_item (findall_below "item" root) self.

(** [d.get(key)] on one of the two tables: [None] for a key that is not
    there, and for a key bound to [None]. *)
Definition table_get (d : gmap (option str) (option str)) (key : option str) : option str :=
  default None (d !! key).

(** [d.get(v)] for a front matter value [v]: a sequence or a mapping cannot
    be hashed; a scalar that is neither a string nor [None] is no key of
    the tables. *)
Definition table_get_value (d : gmap (option str) (option str)) (v : yaml)
  : outcome (option str) :=
  match v with
  | YStr s => Returned (table_get d (Some s))
  | YNone => Returned (table_get d None)
  | YScalar _ => Returned None
  | YSeq _ | YMap _ => Raised TypeError
  end.

(** Truth value of a string that may be [None]. *)
Definition truthy_opt (v : option str) : bool :=
  match v with
  | Some s => PyStr.truthy s
  | None => false
  end.

(** [get_thumbnail_url]. *)
Definition get_thumbnail_url (self : Extractor) (post_slug : str) (post_title : yaml)
  : outcome (option str) :=
  let thumbnail_id := table_get (post_thumbnails self) (Some post_slug) in
  let fallback :=
    if negb (truthy_opt thumbnail_id)
    then table_get_value (post_thumbnails self) post_title
    else Returned thumbnail_id in
  match fallback with
  | Raised e => Raised e
  | Returned thumbnail_id =>
      if truthy_opt thumbnail_id
      then Returned (table_get (attachments self) thumbnail_id)
      else Returned None
  end.

(** The slug of a post, from the stem of its file name. *)
Definition post_slug (stem : str) : str :=
  if has_char hyphen stem
  then last_piece (split hyphen (Some 3) stem)
  else stem.

Definition fence : str := "---".
Definition closing_fence : str := [newline] ++ fence ++ [newline].

(** The two keys of the front matter that hold a featured image. *)
Definition featured_image : str := "featured_image".
Definition image : str := "image".

(** What one call of [update_post] leaves behind: the extractor, the text
    written back to the file of the post when there is a write, and the
    value returned or the exception raised. *)
Record post_run : Type := {
  extractor : Extractor;
  written : option str;
  result : outcome bool
}.

Section WithYaml.

(** [yaml.safe_load] and [yaml.dump] with the options of [update_post]
    ([default_flow_style=False, allow_unicode=True, sort_keys=False]):
    the YAML library is not part of the repository. *)
Variable yaml_safe_load : str → outcome yaml.
Variable yaml_dump : yaml → str.

(** [extract_front_matter]. *)
Definition extract_front_matter (content : str) : option yaml * str :=
  if negb (startswith content fence) then (None, content)
  else
    match find_sub closing_fence (drop 3 content) with
    | None => (None, content)
    | Some start =>
        let yaml_content := take start (drop 3 content) in
        let rest_content := drop (start + length closing_fence + 3) content in
        match yaml_safe_load yaml_content with
        | Returned front_matter => (Some front_matter, rest_content)
        | Raised _ => (None, content)
        end
    end.

(** [not front_matter], for what [extract_front_matter] returns. *)
Definition no_front_matter (front_matter : option yaml) : bool :=
  match front_matter with
  | Some v => negb (Yaml.truthy v)
  | None => true
  end.

Definition skip (self : Extractor) : post_run :=
  {| extractor := skipped self; written := None; result := Returned false |}.

Definition raise (self : Extractor) (e : exn) : post_run :=
  {| extractor := self; written := None; result := Raised e |}.

(** [update_post], on the text read from the file of the post.  Of the
    values that [yaml.safe_load] returns only a mapping has the [get]
    method called for the title: the call raises on the others. *)
Definition update_post (self : Extractor) (post_path : Path) (content : str) : post_run :=
  let self := found self in
  let (front_matter, body) := extract_front_matter content in
  if no_front_matter front_matter then skip self
  else
    let front_matter := default YNone front_matter in
    match Yaml.contains featured_image front_matter with
    | Raised e => raise self e
    | Returned true => skip self
    | Returned false =>
    match Yaml.contains image front_matter with
    | Raised e => raise self e
    | Returned true => skip self
    | Returned false =>
    let post_slug := post_slug (stem post_path) in
    match front_matter with
    | YMap entries =>
        let post_title := Yaml.dict_get "title" (YStr []) entries in
        match get_thumbnail_url self post_slug post_title with
        | Raised e => raise self e
        | Returned thumbnail_url =>
            if negb (truthy_opt thumbnail_url) then skip self
            else
              let public_id := Deriver.public_id (default [] thumbnail_url) in
              let front_matter :=
                YMap (Yaml.dict_set featured_image (YStr public_id) entries) in
              let new_content :=
                (fence ++ [newline]) ++ yaml_dump front_matter
                ++ (fence ++ [newline]) ++ body in
              {| extractor := updated self; written := Some new_content;
                 result := Returned true |}
        end
    | _ => raise self AttributeError
    end
    end end.

(** The loop of [run] over the posts, in the order of
    [sorted(self.posts_dir.glob('*.md'))]: the extractor at the end and
    the files written, each with its new text. *)
Fixpoint update_posts (self : Extractor) (posts : list (Path * str))
  : Extractor * list (Path * str) :=
  match posts with
  | [] => (self, [])
  | (post_file, content) :: posts' =>
      let r := update_post self post_file content in
      let self :=
        match result r with
        | Returned _ => extractor r
        | Raised e => add_error (name post_file, e) (extractor r)
        end in
      let (self, writes) := update_posts self posts' in
      (self, match written r with
             | Some new_content => (post_file, new_content) :: writes
             | None => writes
             end)
  end.

(** [run], on the parsed export and the posts of the directory. *)
Definition run (root : element) (posts : list (Path * str)) (self : Extractor)
  : Extractor * list (Path * str) :=
  update_posts (parse_xml root self) posts.

End WithYaml.

End Extractor.

(** ** The Cloudinary auditor ([CloudinaryAuditor]) *)

(** One answer of [cloudinary.api.resources]: the [public_id] of each record
    of [result['resources']], and [result['next_cursor']] when the key is
    there. *)
Record page : Type := { resources : list str; next_cursor : option str }.

Record Auditor : Type := {
  cloudinary_images : gset str;
  referenced_images : list (str * list str);
  total_posts : nat;
  total_references : nat;
  total_cloudinary_assets : nat;
  missing_images : list (str * list str);
  unused_images : list str
}.

Module Auditor.
Import PyStr.

(** [__init__]. *)
Definition init : Auditor :=
  {| cloudinary_images := ∅; referenced_images := [];
     total_posts := 0; total_references := 0; total_cloudinary_assets := 0;
     missing_images := []; unused_images := [] |}.

(** The remote host: the answer to the [n]-th request of a run, given the
    [next_cursor] argument of the request ([None] when it has none). *)
Definition remote : Type := nat → option str → outcome page.

(** The [while True] loop of [fetch_cloudinary_assets], from its [n]-th
    request on.  [None] when [fuel] requests did not reach a page without
    [next_cursor]. *)
Fixpoint fetch_pages (fuel : nat) (api : remote) (n : nat)
  (fetched : list str) (cursor : option str) : option (outcome (list str)) :=
  match fuel with
  | 0 => None
  | S fuel' =>
      let answer :=
        if Extractor.truthy_opt cursor then api n cursor else api n None in
      match answer with
      | Raised e => Some (Raised e)
      | Returned result =>
          let fetched := fetched ++ resources result in
          match next_cursor result with
          | Some cursor' => fetch_pages fuel' api (S n) fetched (Some cursor')
          | None => Some (Returned fetched)
          end
      end
  end.

(** [fetch_cloudinary_assets]: the [except Exception] clause ends the method
    normally, with the auditor as it was. *)
Definition fetch_cloudinary_assets (fuel : nat) (api : remote) (self : Auditor)
  : option Auditor :=
  match fetch_pages fuel api 0 [] None with
  | None => None
  | Some (Raised _) => Some self
  | Some (Returned fetched) =>
      let images : gset str := list_to_set fetched in
      Some {| cloudinary_images := images;
              referenced_images := referenced_images self;
              total_posts := total_posts self;
              total_references := total_references self;
              total_cloudinary_assets := size images;
              missing_images := missing_images self;
              unused_images := unused_images self |}
  end.

Definition dquote : ascii := ascii_of_nat 34.
Definition squote : ascii := ascii_of_nat 39.

Definition upload_url : str := "https://res.cloudinary.com/circleseven/image/upload/".

(** The class of the pattern that ends a reference: the double quote, a
    whitespace character, [<] and [>]. *)
Definition is_delimiter (c : ascii) : bool :=
  eqc c dquote || is_space c || eqc c "<"%char || eqc c ">"%char.

(** The longest prefix of [s] whose characters satisfy [keep], and what
    follows it. *)
Fixpoint span (keep : ascii → bool) (s : str) : str * str :=
  match s with
  | c :: s' => if keep c then let (a, b) := span keep s' in (c :: a, b) else ([], s)
  | [] => ([], [])
  end.

(** The pattern of [extract_cloudinary_references] anchored at the front of
    [s]: its group and the length of the match.  [[^/]+] is the whole run
    up to the next slash.  The lazy [(.+?)] takes one character that is
    not a newline, whatever it is, and then grows over the characters that
    are no delimiter; the match ends with the delimiter that stops it, or
    at the end of the string. *)
Definition match_reference_at (s : str) : option (str * nat) :=
  match strip_prefix upload_url s with
  | None => None
  | Some t =>
      let (transformations, t') := span (fun c => negb (eqc c slash)) t in
      match transformations, t' with
      | _ :: _, _ :: c :: u =>
          if eqc c newline then None
          else
            let (more, after) := span (fun c => negb (is_delimiter c)) u in
            let public_id := c :: more in
            Some (public_id,
                  length upload_url + length transformations + 1 + length public_id
                  + match after with [] => 0 | _ :: _ => 1 end)
      | _, _ => None
      end
  end.

(** [re.findall(pattern, s)]: the matches from left to right, each search
    starting where the match before ended; [skip] characters of [s] belong
    to that match. *)
Fixpoint findall (skip : nat) (s : str) : list str :=
  match s with
  | [] => []
  | _ :: s' =>
      match skip with
      | S skip' => findall skip' s'
      | 0 => match match_reference_at s with
             | Some (public_id, len) => public_id :: findall (len - 1) s'
             | None => findall 0 s'
             end
      end
  end.

(** [self.referenced_images[public_id].append(name)] on the
    [defaultdict(list)]. *)
Fixpoint add_reference (public_id name : str) (d : list (str * list str))
  : list (str * list str) :=
  match d with
  | [] => [(public_id, [name])]
  | (k, post_files) :: d' =>
      if bool_decide (k = public_id) then (k, post_files ++ [name]) :: d'
      else (k, post_files) :: add_reference public_id name d'
  end.

(** The characters that [strip] removes from the ends of a match. *)
Definition strip_chars : str := [dquote; squote; " "%char].

(** The body of the loop over the matches of one post. *)
Definition record_match (name : str) (self : Auditor) (public_id : str) : Auditor :=
  let public_id := strip strip_chars public_id in
  {| cloudinary_images := cloudinary_images self;
     referenced_images := add_reference public_id name (referenced_images self);
     total_posts := total_posts self;
     total_references := S (total_references self);
     total_cloudinary_assets := total_cloudinary_assets self;
     missing_images := missing_images self;
     unused_images := unused_images self |}.

(** How many of the matches are [public_id] once stripped. *)
Definition mentions (public_id : str) (matches : list str) : nat :=
  length (List.filter (fun m => bool_decide (strip strip_chars m = public_id)) matches).

(** The body of the loop of [extract_cloudinary_references] over the
    posts: [post] is the name of the file and the text read from it. *)
Definition scan_post (self : Auditor) (post : str * str) : Auditor :=
  let self :=
    {| cloudinary_images := cloudinary_images self;
       referenced_images := referenced_images self;
       total_posts := S (total_posts self);
       total_references := total_references self;
       total_cloudinary_assets := total_cloudinary_assets self;
       missing_images := missing_images self;
       unused_images := unused_images self |} in
  let matches := findall 0 post.2 in
  fold_left (record_match post.1) matches self.

(** [extract_cloudinary_references], on the posts in the order of
    [self.posts_dir.glob('*.md')]. *)
Definition extract_cloudinary_references (posts : list (str * str)) (self : Auditor)
  : Auditor :=
  fold_left scan_post posts self.

(** [d.get(public_id, [])] on the references. *)
Fixpoint references_of (public_id : str) (d : list (str * list str)) : list str :=
  match d with
  | [] => []
  | (k, post_files) :: d' =>
      if bool_decide (k = public_id) then post_files else references_of public_id d'
  end.

(** [set(d.keys())]. *)
Definition keys (d : list (str * list str)) : gset str := list_to_set d.*1.

(** The entries that the loop of [find_missing_images] reports: the
    references that are not in the inventory, in the order of the
    dictionary. *)
Definition missing (referenced : list (str * list str)) (inventory : gset str)
  : list (str * list str) :=
  List.filter (fun entry => bool_decide (entry.1 ∉ inventory)) referenced.

(** The difference that [find_unused_images] computes. *)
Definition unused (referenced : list (str * list str)) (inventory : gset str)
  : gset str :=
  inventory ∖ keys referenced.

(** [find_missing_images]. *)
Definition find_missing_images (self : Auditor) : Auditor :=
  let missing := missing (referenced_images self) (cloudinary_images self) in
  {| cloudinary_images := cloudinary_images self;
     referenced_images := referenced_images self;
     total_posts := total_posts self;
     total_references := total_references self;
     total_cloudinary_assets := total_cloudinary_assets self;
     missing_images := missing_images self ++ missing;
     unused_images := unused_images self |}.

(** The order of Python on strings: by code point, a prefix first. *)
Fixpoint str_leb (a b : str) : bool :=
  match a, b with
  | [], _ => true
  | _ :: _, [] => false
  | x :: a', y :: b' =>
      if code x <? code y then true
      else if code y <? code x then false
      else str_leb a' b'
  end.

Definition str_le (a b : str) : Prop := str_leb a b.

#[global] Instance str_le_dec : RelDecision str_le.
Proof. intros a b. unfold str_le. apply _. Defined.

(** [sorted] on a set of strings. *)
Definition sorted (s : gset str) : list str := merge_sort str_le (elements s).

(** [find_unused_images]: [unused_images] is assigned only when the
    difference is not empty. *)
Definition find_unused_images (self : Auditor) : Auditor :=
  let unused := unused (referenced_images self) (cloudinary_images self) in
  if bool_decide (unused = ∅) then self
  else
    {| cloudinary_images := cloudinary_images self;
       referenced_images := referenced_images self;
       total_posts := total_posts self;
       total_references := total_references self;
       total_cloudinary_assets := total_cloudinary_assets self;
       missing_images := missing_images self;
       unused_images := sorted unused |}.

(** [run]: the auditor it returns the statistics of.  No step of it lets an
    exception of the remote host through. *)
Definition run (fuel : nat) (api : remote) (posts : list (str * str)) (self : Auditor)
  : option (outcome Auditor) :=
  match fetch_cloudinary_assets fuel api self with
  | None => None
  | Some self =>
      let self := extract_cloudinary_references posts self in
      let self := find_missing_images self in
      let self := find_unused_images self in
      Some (Returned self)
  end.

End Auditor.

(** ** Records of the export and front matter titles *)

Module ExportRecords.
Import PyStr Xml.

(** The items that [parse_xml] walks over. *)
Definition items (root : element) : list element := findall_below "item" root.

(** The text of [wp:post_type] is [kind]. *)
Definition has_type (kind : str) (item : element) : Prop :=
  ∃ post_type, find (wp "post_type") item = Some post_type ∧ text post_type = Some kind.

(** A post record with a title whose title key or slug key is [key]: the
    records that can bind [key]. *)
Definition keyed (key : option str) (item : element) : Prop :=
  has_type "post" item ∧
  ∃ title, find "title" item = Some title ∧
    (text title = key ∨ ∃ post_name, find (wp "post_name") item = Some post_name ∧
                                      text post_name = key).

(** Two extractors with the same counters and the same errors. *)
Definition same_counters (a b : Extractor) : Prop :=
  posts_found a = posts_found b ∧ posts_updated a = posts_updated b ∧
  posts_skipped a = posts_skipped b ∧ errors a = errors b.

(** A front matter title that [dict.get] cannot hash: a list or a mapping. *)
Definition unhashable (title : yaml) : Prop :=
  match title with
  | YSeq _ | YMap _ => True
  | _ => False
  end.

End ExportRecords.

(** ** Pages of the remote host *)

Module Pagination.
Import PyStr Auditor.

(** The request that the loop of [fetch_cloudinary_assets] sends when its
    variable [next_cursor] is [cursor]: with the cursor when it is true,
    and else without one. *)
Definition request (api : remote) (n : nat) (cursor : option str) : outcome page :=
  if Extractor.truthy_opt cursor then api n cursor else api n None.

(** The remote host answers the requests of the loop, from the [n]-th on,
    with these pages: each but the last carries the [next_cursor] that the
    following request is made from, and the last carries none. *)
Inductive paged (api : remote) : nat → option str → list page → Prop :=
  | paged_last n cursor result :
      request api n cursor = Returned result →
      next_cursor result = None →
      paged api n cursor [result]
  | paged_more n cursor result cursor' pages :
      request api n cursor = Returned result →
      next_cursor result = Some cursor' →
      paged api (S n) (Some cursor') pages →
      paged api n cursor (result :: pages).

(** The identifiers of all the records of the pages. *)
Definition public_ids (pages : list page) : list str := concat (map resources pages).

(** The number of document names held by the references, all identifiers
    together. *)
Definition mention_count (d : list (str * list str)) : nat :=
  sum_list (map (fun entry => length entry.2) d).

(** An identifier without a double quote, a space or a newline. *)
Definition clean (public_id : str) : Prop :=
  dquote ∉ public_id ∧ " "%char ∉ public_id ∧ newline ∉ public_id.

End Pagination.

(** ** The lazy-loading rewriter ([scripts/add-lazy-loading.py]) *)

Record LazyStats : Type := {
  posts_with_images : nat;
  posts_already_have_lazy : nat;
  lazy_posts_updated : nat
}.

Module LazyLoading.
Import PyStr.

Definition gt : ascii := ">"%char.
Definition img : str := "<img".
Definition loading : str := "loading".
Definition loading_eq : str := "loading=".
Definition self_closing : str := "/>".

(** [<img[^>]+>] and [<img[^>]+/?>] anchored at the front of [s]: the text
    of the match.  The greedy [[^>]+] is the whole run up to the next [>],
    a slash before it included, and the optional slash then matches
    nothing: the two patterns match the same text, when the run is not
    empty and a [>] ends it. *)
Definition match_img_at (s : str) : option str :=
  match strip_prefix img s with
  | None => None
  | Some t =>
      let (attributes, rest) := Auditor.span (fun c => negb (eqc c gt)) t in
      match attributes, rest with
      | _ :: _, _ :: _ => Some (img ++ attributes ++ [gt])
      | _, _ => None
      end
  end.

(** [has_images]. *)
Fixpoint has_images (content : str) : bool :=
  match match_img_at content with
  | Some _ => true
  | None => match content with
            | [] => false
            | _ :: content' => has_images content'
            end
  end.

(** [loading\s*=] anchored at the front of [s]. *)
Definition match_loading_at (s : str) : bool :=
  match strip_prefix loading s with
  | None => false
  | Some t =>
      match (Auditor.span is_space t).2 with
      | c :: _ => eqc c "="%char
      | [] => false
      end
  end.

(** [has_lazy_loading]. *)
Fixpoint has_lazy_loading (content : str) : bool :=
  match_loading_at content
  || match content with
     | [] => false
     | _ :: content' => has_lazy_loading content'
     end.

(** [s.endswith(p)]. *)
Definition endswith (s p : str) : bool :=
  match strip_prefix (rev p) (rev s) with Some _ => true | None => false end.

(** The text that is added to a tag: a space, [loading=] and the word
    [lazy] between double quotes. *)
Definition lazy_attribute : str :=
  (" loading=" : str) ++ [Auditor.dquote] ++ ("lazy" : str) ++ [Auditor.dquote].

(** [add_loading_attr], on the text of the match. *)
Definition add_loading_attr (img_tag : str) : str :=
  if bool_decide (is_Some (find_sub loading_eq img_tag)) then img_tag
  else if endswith img_tag self_closing
  then take (length img_tag - 2) img_tag ++ lazy_attribute ++ (" />" : str)
  else take (length img_tag - 1) img_tag ++ lazy_attribute ++ [gt].

(** [re.sub(r'<img[^>]+/?>', add_loading_attr, s)]: [skip] characters of
    [s] belong to the match before. *)
Fixpoint sub_img (skip : nat) (s : str) : str :=
  match s with
  | [] => []
  | c :: s' =>
      match skip with
      | S skip' => sub_img skip' s'
      | 0 => match match_img_at s with
             | Some img_tag => add_loading_attr img_tag ++ sub_img (length img_tag - 1) s'
             | None => c :: sub_img 0 s'
             end
      end
  end.

(** [add_lazy_loading_to_content]. *)
Definition add_lazy_loading_to_content (content : str) : str := sub_img 0 content.

Definition init : LazyStats :=
  {| posts_with_images := 0; posts_already_have_lazy := 0; lazy_posts_updated := 0 |}.

(** The body of the loop of [main] on the text of one post: the counters,
    and the text written back when there is a write. *)
Definition process (stats : LazyStats) (content : str) : LazyStats * option str :=
  if negb (has_images content) then (stats, None)
  else
    let stats :=
      {| posts_with_images := S (posts_with_images stats);
         posts_already_have_lazy := posts_already_have_lazy stats;
         lazy_posts_updated := lazy_posts_updated stats |} in
    if has_lazy_loading content then
      ({| posts_with_images := posts_with_images stats;
          posts_already_have_lazy := S (posts_already_have_lazy stats);
          lazy_posts_updated := lazy_posts_updated stats |}, None)
    else
      let updated_content := add_lazy_loading_to_content content in
      if bool_decide (updated_content ≠ content) then
        ({| posts_with_images := posts_with_images stats;
            posts_already_have_lazy := posts_already_have_lazy stats;
            lazy_posts_updated := S (lazy_posts_updated stats) |}, Some updated_content)
      else (stats, None).

End LazyLoading.

(** ** A stand-in for the YAML library

    Mappings of one-line strings, one [key: value] per line: enough to run
    the extractor on the examples below.  The properties of the extractor
    are proved for any [yaml.safe_load] and [yaml.dump]. *)

Module FlatYaml.
Import PyStr.

Definition entry_of_line (line : str) : option (yaml * yaml) :=
  match find_sub ": " line with
  | Some i => Some (YStr (take i line), YStr (drop (i + 2) line))
  | None => None
  end.

Definition safe_load (s : str) : outcome yaml :=
  match omap entry_of_line (split newline None s) with
  | [] => Returned YNone
  | entries => Returned (YMap entries)
  end.

Definition line_of_entry (entry : yaml * yaml) : str :=
  match entry with
  | (YStr k, YStr v) => k ++ (": " : str) ++ v ++ [newline]
  | _ => []
  end.

Definition dump (v : yaml) : str :=
  match v with
  | YMap entries => concat (map line_of_entry entries)
  | _ => []
  end.

End FlatYaml.

(** ** Inputs of the examples *)

Module Inputs.
Import PyStr Xml.

Definition nl : str := [newline].

Definition leaf (tag text : str) : element := Element tag (Some text) [].

Definition postmeta (key value : str) : element :=
  Element (wp "postmeta") None [leaf (wp "meta_key") key; leaf (wp "meta_value") value].

Definition export_of (items : list element) : element :=
  Element "rss" None [Element "channel" None items].

Definition hero_url : str := "https://old.example/wp-content/uploads/2022/03/hero.png".

Definition hero_attachment : element :=
  Element "item" None
    [leaf "title" "hero"; leaf (wp "post_id") "42"; leaf (wp "post_type") "attachment";
     leaf (wp "attachment_url") hero_url].

(** A post with a title, a slug and a featured image. *)
Definition launch_post : element :=
  Element "item" None
    [leaf "title" "Launch Day"; leaf (wp "post_name") "launch-day";
     leaf (wp "post_type") "post"; postmeta "_edit_last" "1"; postmeta "_thumbnail_id" "42"].

(** A post with a slug and a featured image, and no title element. *)
Definition untitled_post : element :=
  Element "item" None
    [leaf (wp "post_name") "hello-world"; leaf (wp "post_type") "post";
     postmeta "_thumbnail_id" "42"].

(** A post whose featured-image entry has an empty value, and a later post
    that carries the title of the document looked up below. *)
Definition empty_marker_post : element :=
  Element "item" None
    [leaf "title" "Old launch"; leaf (wp "post_name") "launch-day";
     leaf (wp "post_type") "post";
     Element (wp "postmeta") None
       [leaf (wp "meta_key") "_thumbnail_id"; Element (wp "meta_value") None []]].

Definition retitled_post : element :=
  Element "item" None
    [leaf "title" "Launch Day"; leaf (wp "post_name") "launch-day-2";
     leaf (wp "post_type") "post"; postmeta "_thumbnail_id" "42"].

Definition empty_marker_export : element :=
  export_of [hero_attachment; empty_marker_post; retitled_post].

Definition launch_export : element := export_of [hero_attachment; launch_post].
Definition untitled_export : element := export_of [hero_attachment; untitled_post].

(** A table in which the slug is bound to an empty attachment id and the
    title to the id of the hero image. *)
Definition empty_slug_binding : Extractor :=
  {| attachments := {[ Some ("42" : str) := Some hero_url ]};
     post_thumbnails :=
       <[ Some ("launch-day" : str) := Some ([] : str) ]>
         {[ Some ("Launch Day" : str) := Some ("42" : str) ]};
     posts_found := 0; posts_updated := 0; posts_skipped := 0; errors := [] |}.

(** A table in which the slug and the title are bound to two ids. *)
Definition slug_and_title_bound : Extractor :=
  {| attachments := {[ Some ("42" : str) := Some hero_url ]};
     post_thumbnails :=
       <[ Some ("launch-day" : str) := Some ("42" : str) ]>
         {[ Some ("Launch Day" : str) := Some ("7" : str) ]};
     posts_found := 0; posts_updated := 0; posts_skipped := 0; errors := [] |}.

Definition launch_path : Path :=
  {| name := "2024-05-01-launch-day.md"; stem := "2024-05-01-launch-day" |}.

(** A post without a featured image in its front matter. *)
Definition launch_document : str :=
  ("---" : str) ++ nl ++ ("title: Launch Day" : str) ++ nl ++ ("layout: post" : str) ++ nl
  ++ ("---" : str) ++ nl ++ ("Body of the post." : str) ++ nl.

(** What [update_post] writes for it, with the export of the hero image. *)
Definition rewritten_document : str :=
  ("---" : str) ++ nl ++ ("title: Launch Day" : str) ++ nl ++ ("layout: post" : str) ++ nl
  ++ ("featured_image: 03/hero" : str) ++ nl
  ++ ("---" : str) ++ nl ++ ("Body of the post." : str) ++ nl.

(** The same post with an image set under the other key. *)
Definition featured_document : str :=
  ("---" : str) ++ nl ++ ("title: Launch Day" : str) ++ nl ++ ("image: 03/other" : str) ++ nl
  ++ ("---" : str) ++ nl ++ ("Body of the post." : str) ++ nl.

Definition hero_reference : str :=
  ("<img src=" : str) ++ [Auditor.dquote]
  ++ ("https://res.cloudinary.com/circleseven/image/upload/w_800/03/hero" : str)
  ++ [Auditor.dquote] ++ (">" : str) ++ nl.

(** A post that mentions the hero image once, and one that mentions it
    twice. *)
Definition once_post : str * str := ("once.md" : str, hero_reference).
Definition twice_post : str * str := ("twice.md" : str, hero_reference ++ hero_reference).

(** An auditor that has scanned [once_post], with an inventory that holds
    the hero image under another case. *)
Definition mixed_case_audit : Auditor :=
  {| cloudinary_images := {[ ("03/Hero" : str) ]};
     referenced_images := [("03/hero" : str, [("once.md" : str)])];
     total_posts := 1; total_references := 1; total_cloudinary_assets := 1;
     missing_images := []; unused_images := [] |}.

(** A remote host whose first page lists the hero image and announces a
    second page, and whose second request fails. *)
Definition failing_remote : Auditor.remote :=
  fun n cursor =>
    match n with
    | 0 => Returned {| resources := [("03/hero" : str)]; next_cursor := Some ("page2" : str) |}
    | _ => Raised TransportError
    end.

(** A remote host with two pages. *)
Definition two_page_remote : Auditor.remote :=
  fun n cursor =>
    if bool_decide (cursor = Some ("page2" : str))
    then Returned {| resources := [("logo" : str)]; next_cursor := None |}
    else Returned {| resources := [("03/hero" : str)]; next_cursor := Some ("page2" : str) |}.

End Inputs.

(** * Properties *)

(** ** Strings *)

Module PyStrFacts.
Import PyStr.

Lemma eqc_true a b : eqc a b = true ↔ a = b.
Proof. apply Ascii.eqb_eq. Qed.

Lemma eqc_false a b : eqc a b = false ↔ a ≠ b.
Proof. apply Ascii.eqb_neq. Qed.

Lemma eqc_refl a : eqc a a = true.
Proof. by apply eqc_true. Qed.

Lemma has_char_true c s : has_char c s = true ↔ c ∈ s.
Proof.
  unfold has_char. rewrite existsb_exists. split.
  - intros (x & Hx & E). apply eqc_true in E as ->. by apply list_elem_of_In.
  - intros H. exists c. split; [by apply list_elem_of_In | apply eqc_refl].
Qed.

Lemma has_char_false c s : has_char c s = false ↔ c ∉ s.
Proof. rewrite <- has_char_true. by destruct (has_char c s). Qed.

Lemma truthy_true (s : str) : truthy s = true ↔ s ≠ [].
Proof. by destruct s. Qed.

Lemma strip_prefix_Some p s r : strip_prefix p s = Some r ↔ s = p ++ r.
Proof.
  revert s. induction p as [|a p IH]; intros s; simpl.
  - split; [by intros [= ->] | by intros ->].
  - destruct s as [|b s]; [done|].
    destruct (eqc a b) eqn:E.
    + apply eqc_true in E as ->. rewrite IH. split; [by intros -> | by intros [= ->]].
    + apply eqc_false in E. split; [done | by intros [= ? _]].
Qed.

Lemma strip_prefix_app p r : strip_prefix p (p ++ r) = Some r.
Proof. by apply strip_prefix_Some. Qed.

Lemma strip_prefix_ci_Some p s r :
  strip_prefix_ci p s = Some r ↔ ∃ s1, s = s1 ++ r ∧ map lower s1 = map lower p.
Proof.
  revert s. induction p as [|a p IH]; intros s; simpl.
  - split.
    + intros [= ->]. by exists [].
    + intros ([|??] & -> & E); [done | discriminate].
  - destruct s as [|b s].
    + split; [done|]. intros ([|??] & E1 & E2); discriminate.
    + destruct (eqc (lower a) (lower b)) eqn:E.
      * apply eqc_true in E. rewrite IH. split.
        -- intros (s1 & -> & E1). exists (b :: s1). simpl. by rewrite E, E1.
        -- intros ([|c s1] & E1 & E2); [discriminate|].
           simpl in *. simplify_eq. by exists s1.
      * apply eqc_false in E. split; [done|].
        intros ([|c s1] & E1 & E2); [discriminate|].
        simpl in *. simplify_eq.
Qed.

Lemma endswith_ci_true s p :
  endswith_ci s p = true ↔ ∃ base e, s = base ++ e ∧ map lower e = map lower p.
Proof.
  unfold endswith_ci. split.
  - destruct (strip_prefix_ci (rev p) (rev s)) as [r|] eqn:E; [|done]. intros _.
    apply strip_prefix_ci_Some in E as (s1 & E1 & E2).
    exists (rev r), (rev s1). split.
    + by rewrite <- rev_app_distr, <- E1, rev_involutive.
    + by rewrite map_rev, E2, map_rev, rev_involutive.
  - intros (base & e & -> & E).
    assert (strip_prefix_ci (rev p) (rev (base ++ e)) = Some (rev base)) as ->; [|done].
    apply strip_prefix_ci_Some. exists (rev e). split.
    + by rewrite rev_app_distr.
    + by rewrite !map_rev, E.
Qed.

Lemma lower_lower c : lower (lower c) = lower c.
Proof. by destruct c as [[] [] [] [] [] [] [] []]. Qed.

(** The characters that [lower] sends to a dot, a newline or a slash are
    these characters themselves. *)
Lemma lower_special c :
  (lower c = dot → c = dot) ∧ (lower c = newline → c = newline) ∧ (lower c = slash → c = slash).
Proof. by destruct c as [[] [] [] [] [] [] [] []]. Qed.

Lemma at_dollar_true rest : at_dollar rest = true ↔ rest = [] ∨ rest = [newline].
Proof.
  destruct rest as [|c [|d rest]]; simpl.
  - by split; [left|].
  - rewrite eqc_true. split; [intros ->; by right | by intros [?|[= ->]]].
  - split; [done | by intros [?|?]].
Qed.



Lemma split_zero sep s : split sep (Some 0) s = [s].
Proof.
  induction s as [|c s IH]; [done|]. simpl.
  rewrite andb_false_r. by rewrite IH.
Qed.

Lemma split_no_sep sep mx s : sep ∉ s → split sep mx s = [s].
Proof.
  induction s as [|c s IH]; [done|]. intros H. apply not_elem_of_cons in H as [H1 H2].
  simpl. assert (eqc c sep = false) as -> by (apply eqc_false; congruence).
  simpl. by rewrite IH.
Qed.

(** A piece that has no separator is cut at the separator that follows it,
    when a split is still allowed. *)
Lemma split_piece sep mx a r :
  sep ∉ a → mx ≠ Some 0 →
  split sep mx (a ++ sep :: r) = a :: split sep (pred <$> mx) r.
Proof.
  intros Ha Hmx. induction a as [|c a IH]; simpl.
  - rewrite eqc_refl. by rewrite bool_decide_eq_false_2.
  - apply not_elem_of_cons in Ha as [H1 H2].
    assert (eqc c sep = false) as -> by (apply eqc_false; congruence).
    simpl. by rewrite IH.
Qed.

(** Without a limit, the last piece is what follows the last separator. *)
Lemma split_last sep a f :
  sep ∉ f → ∃ pieces, pieces ≠ [] ∧ split sep None (a ++ sep :: f) = pieces ++ [f].
Proof.
  intros Hf. induction a as [|c a (pieces & Hne & IH)]; simpl.
  - rewrite eqc_refl. simpl. exists [[]]. split; [done|]. by rewrite split_no_sep.
  - rewrite IH. destruct (eqc c sep); simpl.
    + exists ([] :: pieces). by split.
    + destruct pieces as [|p pieces]; [done|]. simpl.
      exists ((c :: p) :: pieces). by split.
Qed.

Lemma last_piece_split sep a f :
  sep ∉ f → last_piece (split sep None (a ++ sep :: f)) = f.
Proof.
  intros Hf. destruct (split_last sep a f Hf) as (pieces & _ & ->).
  unfold last_piece. apply last_last.
Qed.

Lemma last_piece_suffix url : ∃ dir, url = dir ++ last_piece (split slash None url).
Proof.
  destruct (decide (slash ∈ url)) as [H|H].
  - apply list_elem_of_split_r in H as (a & f & -> & Hf).
    exists (a ++ [slash]). rewrite last_piece_split by done. by rewrite <- app_assoc.
  - exists []. by rewrite split_no_sep.
Qed.

(** The text before the first occurrence of a character is determined. *)
Lemma first_occurrence (x : ascii) l r l' r' :
  x ∉ l → x ∉ l' → l ++ x :: r = l' ++ x :: r' → l = l' ∧ r = r'.
Proof.
  revert l'. induction l as [|c l IH]; intros [|c' l'] Hl Hl' E; simpl in E.
  - by injection E.
  - injection E as <- _. exfalso. apply Hl'. by left.
  - injection E as -> _. exfalso. apply Hl. by left.
  - injection E as -> E.
    apply not_elem_of_cons in Hl as [_ Hl]. apply not_elem_of_cons in Hl' as [_ Hl'].
    destruct (IH _ Hl Hl' E) as [-> ->]. done.
Qed.

(** And so is the text after the last one. *)
Lemma last_occurrence (x : ascii) a f a' f' :
  x ∉ f → x ∉ f' → a ++ x :: f = a' ++ x :: f' → a = a' ∧ f = f'.
Proof.
  intros Hf Hf' E. apply (f_equal (@rev ascii)) in E.
  rewrite !rev_app_distr in E. simpl in E. rewrite <- !app_assoc in E. simpl in E.
  apply first_occurrence in E as [E1 E2].
  - apply (f_equal (@rev ascii)) in E1, E2. rewrite !rev_involutive in E1, E2. done.
  - intros H. apply Hf. apply list_elem_of_In. apply in_rev. by apply list_elem_of_In.
  - intros H. apply Hf'. apply list_elem_of_In. apply in_rev. by apply list_elem_of_In.
Qed.

End PyStrFacts.

(** ** The identifier deriver *)

Module DeriverFacts.
Import PyStr PyStrFacts Deriver.

Lemma extensions_plain :
  Forall (fun x => map lower x = x ∧ (dot ∉ x) ∧ (newline ∉ x) ∧ (slash ∉ x)) extensions.
Proof. apply (bool_decide_unpack _). vm_compute. exact I. Qed.

Lemma extension_plain x :
  x ∈ extensions → map lower x = x ∧ (dot ∉ x) ∧ (newline ∉ x) ∧ (slash ∉ x).
Proof. intros H. by apply (proj1 (Forall_forall _ _) extensions_plain). Qed.

Lemma is_extension_true e : is_extension e = true ↔ map lower e ∈ extensions.
Proof. unfold is_extension. by rewrite bool_decide_eq_true. Qed.

Lemma elem_of_map_lower_special c (e : str) :
  c = dot ∨ c = newline ∨ c = slash → c ∈ e → c ∈ map lower e.
Proof.
  intros Hc Hin. apply list_elem_of_fmap. exists c. split; [|done].
  destruct Hc as [->|[->| ->]]; done.
Qed.

(** An extension holds no dot, no newline and no slash. *)
Lemma extension_chars e c :
  is_extension e = true → c = dot ∨ c = newline ∨ c = slash → c ∉ e.
Proof.
  intros He Hc Hin. apply is_extension_true in He.
  pose proof (extension_plain _ He) as (_ & H1 & H2 & H3).
  pose proof (elem_of_map_lower_special c e Hc Hin).
  destruct Hc as [->|[->| ->]]; done.
Qed.

Lemma match_alternatives_Some exts t rest :
  match_alternatives exts t = Some rest →
  ∃ x, x ∈ exts ∧ strip_prefix_ci x t = Some rest ∧ at_dollar rest = true.
Proof.
  induction exts as [|e exts IH]; simpl; [done|].
  destruct (strip_prefix_ci e t) as [r|] eqn:E.
  - destruct (at_dollar r) eqn:D.
    + intros [= <-]. exists e. split; [left | done].
    + intros H. destruct (IH H) as (x & ? & ? & ?). exists x. split; [by right | done].
  - intros H. destruct (IH H) as (x & ? & ? & ?). exists x. split; [by right | done].
Qed.

Lemma match_alternatives_is_Some exts t x rest :
  x ∈ exts → strip_prefix_ci x t = Some rest → at_dollar rest = true →
  is_Some (match_alternatives exts t).
Proof.
  induction exts as [|e exts IH]; simpl; [by intros ?%elem_of_nil|].
  intros [->|Hin]%elem_of_cons Hx Hd.
  - rewrite Hx, Hd. eauto.
  - destruct (strip_prefix_ci e t) as [r|]; [destruct (at_dollar r)|]; eauto.
Qed.

(** Two alternatives that both match up to [$] leave the same rest. *)
Lemma alternatives_agree x x' t rest rest' :
  x ∈ extensions → x' ∈ extensions →
  strip_prefix_ci x t = Some rest → at_dollar rest = true →
  strip_prefix_ci x' t = Some rest' → at_dollar rest' = true →
  rest = rest'.
Proof.
  intros Hx Hx' (s1 & -> & E1)%strip_prefix_ci_Some D (s1' & E & E1')%strip_prefix_ci_Some D'.
  destruct (extension_plain _ Hx) as (Lx & _ & Nx & _).
  destruct (extension_plain _ Hx') as (Lx' & _ & Nx' & _).
  rewrite Lx in E1. rewrite Lx' in E1'.
  apply at_dollar_true in D as [->| ->]; apply at_dollar_true in D' as [->| ->]; try done.
  - rewrite app_nil_r in E. subst s1. exfalso. apply Nx. rewrite <- E1.
    rewrite map_app. apply elem_of_app. right. by left.
  - rewrite app_nil_r in E. subst s1'. exfalso. apply Nx'. rewrite <- E1'.
    rewrite map_app. apply elem_of_app. right. by left.
Qed.

Lemma match_ext_at_Some s rest :
  match_ext_at s = Some rest ↔
  ∃ e, s = dot :: e ++ rest ∧ is_extension e = true ∧ at_dollar rest = true.
Proof.
  unfold match_ext_at. split.
  - destruct s as [|c t]; [done|]. destruct (eqc c dot) eqn:E; [|done].
    apply eqc_true in E as ->.
    intros (x & Hx & (s1 & -> & E1)%strip_prefix_ci_Some & D)%match_alternatives_Some.
    exists s1. split; [done|]. split; [|done].
    apply is_extension_true. rewrite E1.
    by destruct (extension_plain _ Hx) as (-> & _).
  - intros (e & -> & He & D). rewrite eqc_refl.
    apply is_extension_true in He.
    assert (strip_prefix_ci (map lower e) (e ++ rest) = Some rest) as Hs.
    { apply strip_prefix_ci_Some. exists e. split; [done|].
      rewrite <- list_fmap_compose. apply list_fmap_ext. intros ???. simpl.
      by rewrite lower_lower. }
    destruct (match_alternatives_is_Some _ _ _ _ He Hs D) as [r Hr].
    rewrite Hr. f_equal.
    apply match_alternatives_Some in Hr as (x' & Hx' & Hs' & D').
    by eapply (alternatives_agree x' (map lower e)).
Qed.

Lemma match_ext_at_no_dot c t rest :
  match_ext_at (c :: t) = Some rest → dot ∉ t.
Proof.
  intros (e & [= -> ->] & He & D)%match_ext_at_Some.
  rewrite elem_of_app. intros [H|H].
  - exact (extension_chars e dot He (or_introl eq_refl) H).
  - apply at_dollar_true in D as [->| ->]; [by apply elem_of_nil in H|].
    by apply list_elem_of_singleton in H.
Qed.

Lemma re_sub_ext_unfold s :
  re_sub_ext s =
  match match_ext_at s with
  | Some rest => rest
  | None => match s with [] => [] | c :: s' => c :: re_sub_ext s' end
  end.
Proof. by destruct s. Qed.

(** [re.sub] removes the extension that ends the string, and only it. *)
Lemma re_sub_ext_match base e rest :
  is_extension e = true → at_dollar rest = true →
  re_sub_ext (base ++ dot :: e ++ rest) = base ++ rest.
Proof.
  intros He D. induction base as [|c base IH]; rewrite re_sub_ext_unfold.
  - assert (match_ext_at (dot :: e ++ rest) = Some rest) as H.
    { apply match_ext_at_Some. eauto. }
    simpl app. by rewrite H.
  - simpl app. destruct (match_ext_at (c :: base ++ dot :: e ++ rest)) as [r|] eqn:E.
    + apply match_ext_at_no_dot in E. exfalso. apply E.
      apply elem_of_app. right. by left.
    + by rewrite IH.
Qed.

(** Either the string ends in an extension, before its final newline if it
    has one, and [re.sub] removes that extension; or [re.sub] changes
    nothing. *)
Lemma re_sub_ext_cases s :
  (∃ base e rest, s = base ++ dot :: e ++ rest ∧ is_extension e = true ∧
                  at_dollar rest = true ∧ re_sub_ext s = base ++ rest)
  ∨ (re_sub_ext s = s ∧
     ∀ base e rest, is_extension e = true → at_dollar rest = true →
                    s ≠ base ++ dot :: e ++ rest).
Proof.
  induction s as [|c s IH].
  - right. split; [done|]. intros [|??] ?????; discriminate.
  - destruct (match_ext_at (c :: s)) as [r|] eqn:E.
    + left. pose proof E as (e & -> & He & D)%match_ext_at_Some.
      exists [], e, r. split; [done|]. split; [done|]. split; [done|].
      by apply (re_sub_ext_match []).
    + destruct IH as [(base & e & rest & -> & He & D & Hr)|[Hr Hn]].
      * left. exists (c :: base), e, rest. split; [done|]. split; [done|]. split; [done|].
        by apply (re_sub_ext_match (c :: base)).
      * right. split.
        -- rewrite re_sub_ext_unfold, E. by rewrite Hr.
        -- intros [|b base] e rest He D Heq.
           ++ simpl in Heq. rewrite Heq in E.
              assert (match_ext_at (dot :: e ++ rest) = Some rest) as H
                by (apply match_ext_at_Some; eauto).
              congruence.
           ++ simpl in Heq. injection Heq as -> ->. by eapply Hn.
Qed.

Lemma ends_with_dot_extension s x :
  x ∈ extensions →
  endswith_ci s (dot :: x) = true ↔
  ∃ base e, s = base ++ dot :: e ∧ map lower e = x.
Proof.
  intros Hx. destruct (extension_plain _ Hx) as (Lx & _).
  rewrite endswith_ci_true. split.
  - intros (base & [|d e] & -> & E); [done|]. simpl in E. injection E as E1 E2.
    apply lower_special in E1 as ->. exists base, e. by rewrite E2, Lx.
  - intros (base & e & -> & E). exists base, (dot :: e). split; [done|].
    simpl. by rewrite E, Lx.
Qed.

Lemma has_extension_true s :
  has_extension s = true ↔ ∃ base e, s = base ++ dot :: e ∧ is_extension e = true.
Proof.
  unfold has_extension. rewrite existsb_exists. split.
  - intros (x & Hx%list_elem_of_In & H). apply ends_with_dot_extension in H; [|done].
    destruct H as (base & e & -> & E). exists base, e. split; [done|].
    apply is_extension_true. by rewrite E.
  - intros (base & e & -> & He). apply is_extension_true in He.
    exists (map lower e). split; [by apply list_elem_of_In|].
    apply ends_with_dot_extension; [done|]. by exists base, e.
Qed.

Lemma has_stacked_extensions_true s :
  (∃ base e1 e2, s = base ++ dot :: e1 ++ dot :: e2 ∧
                 is_extension e1 = true ∧ is_extension e2 = true) →
  has_stacked_extensions s = true.
Proof.
  intros (base & e1 & e2 & -> & H1 & H2).
  apply is_extension_true in H1, H2.
  destruct (extension_plain _ H1) as (L1 & _). destruct (extension_plain _ H2) as (L2 & _).
  unfold has_stacked_extensions. apply existsb_exists.
  exists (map lower e1). split; [by apply list_elem_of_In|].
  apply existsb_exists. exists (map lower e2). split; [by apply list_elem_of_In|].
  apply endswith_ci_true. exists base, (dot :: e1 ++ dot :: e2). split; [done|].
  simpl. rewrite !map_app. simpl. rewrite <- !list_fmap_compose.
  f_equal. f_equal; [|f_equal]; apply list_fmap_ext; intros; simpl; by rewrite lower_lower.
Qed.

Lemma re_sub_ext_plain filename :
  has_extension filename = false → newline ∉ filename → re_sub_ext filename = filename.
Proof.
  intros Hx Hn.
  destruct (re_sub_ext_cases filename) as [(b & e & rest & -> & He & D & _)|[H _]];
    [exfalso|done].
  apply at_dollar_true in D as [->| ->].
  - rewrite app_nil_r in Hx. rewrite (proj2 (has_extension_true _)) in Hx; [done|].
    by exists b, e.
  - apply Hn. rewrite elem_of_app. right. right. rewrite elem_of_app. right. by left.
Qed.

(** A dot and an extension at the end of [bucket ++ b], where the bucket is
    empty or ends in a slash, are at the end of [b]. *)
Lemma extension_after_bucket bucket b base e :
  bucket = [] ∨ (∃ month, bucket = month ++ [slash]) →
  is_extension e = true →
  bucket ++ b = base ++ dot :: e →
  ∃ b', b = b' ++ dot :: e.
Proof.
  intros Hb He E. apply app_eq_app in E as [l [[E1 E2]|[E1 E2]]]; [|by exists l].
  destruct l as [|c l _] using rev_ind.
  - exists []. by rewrite E2.
  - exfalso. destruct Hb as [->|[month ->]].
    + apply (f_equal length) in E1. rewrite !length_app in E1. simpl in E1. lia.
    + rewrite app_assoc in E1. apply app_inj_tail in E1 as [_ <-].
      assert (slash ∈ dot :: e) as H.
      { rewrite E2. apply elem_of_app. left. apply elem_of_app. right. by left. }
      apply elem_of_cons in H as [H|H]; [done|].
      exact (extension_chars e slash He (or_intror (or_intror eq_refl)) H).
Qed.

Lemma match_uploads_at_Some s year month filename :
  match_uploads_at s = Some (year, month, filename) ↔
  dated_segments year month filename ∧
  s = uploads_dir ++ year ++ [slash] ++ month ++ [slash] ++ filename.
Proof.
  unfold match_uploads_at, dated_segments. split.
  - destruct (strip_prefix uploads_dir s) as [t|] eqn:E; [|done].
    apply strip_prefix_Some in E as ->.
    destruct t as [|y1 [|y2 [|y3 [|y4 [|s1 [|m1 [|m2 [|s2 f]]]]]]]]; try done.
    destruct (forallb is_digit [y1; y2; y3; y4]) eqn:Dy; [|done].
    destruct (eqc s1 slash) eqn:E1; [|done].
    destruct (forallb is_digit [m1; m2]) eqn:Dm; [|done].
    destruct (eqc s2 slash) eqn:E2; [|done].
    destruct (truthy f) eqn:Tf; [|done].
    destruct (has_char slash f) eqn:Hf; [done|].
    apply eqc_true in E1 as ->. apply eqc_true in E2 as ->.
    apply truthy_true in Tf.
    intros [= <- <- <-]. done.
  - intros ((Ly & Dy & Lm & Dm & Nf & Hf) & ->).
    destruct year as [|y1 [|y2 [|y3 [|y4 [|]]]]]; try done.
    destruct month as [|m1 [|m2 [|]]]; try done.
    rewrite strip_prefix_app. cbn [app].
    rewrite Dy, Dm, !eqc_refl, Hf. apply truthy_true in Nf as ->. done.
Qed.

Lemma re_search_uploads_unfold s :
  re_search_uploads s =
  match match_uploads_at s with
  | Some groups => Some groups
  | None => match s with [] => None | _ :: s' => re_search_uploads s' end
  end.
Proof. by destruct s. Qed.

Lemma re_search_uploads_Some s year month filename :
  re_search_uploads s = Some (year, month, filename) →
  uploads_shape s year month filename.
Proof.
  induction s as [|c s IH]; rewrite re_search_uploads_unfold.
  - destruct (match_uploads_at []) as [g|] eqn:E; [|done].
    intros [= ->]. apply match_uploads_at_Some in E as [? E]. split; [done|]. by exists [].
  - destruct (match_uploads_at (c :: s)) as [g|] eqn:E.
    + intros [= ->]. apply match_uploads_at_Some in E as [? E]. split; [done|]. by exists [].
    + intros H. destruct (IH H) as [? [pre ->]]. split; [done|]. by exists (c :: pre).
Qed.

(** A match of the pattern takes the whole string from where it starts, and
    its last group is the last segment: it can start at one place only. *)
Lemma re_search_uploads_shape s year month filename :
  uploads_shape s year month filename →
  re_search_uploads s = Some (year, month, filename).
Proof.
  intros [D [pre ->]]. induction pre as [|c pre IH]; rewrite re_search_uploads_unfold.
  - assert (match_uploads_at (uploads_dir ++ year ++ [slash] ++ month ++ [slash] ++ filename)
            = Some (year, month, filename)) as H by (by apply match_uploads_at_Some).
    rewrite app_nil_l. by rewrite H.
  - destruct (match_uploads_at _) as [[[y' m'] f']|] eqn:E; [|done].
    exfalso. apply match_uploads_at_Some in E as [D' E].
    destruct D as (Ly & _ & Lm & _ & _ & Hf). destruct D' as (Ly' & _ & Lm' & _ & _ & Hf').
    apply has_char_false in Hf, Hf'.
    replace ((c :: pre) ++ uploads_dir ++ year ++ [slash] ++ month ++ [slash] ++ filename)
      with (((c :: pre) ++ uploads_dir ++ year ++ [slash] ++ month) ++ slash :: filename) in E
      by (by rewrite <- !app_assoc).
    replace (uploads_dir ++ y' ++ [slash] ++ m' ++ [slash] ++ f')
      with ((uploads_dir ++ y' ++ [slash] ++ m') ++ slash :: f') in E
      by (by rewrite <- !app_assoc).
    apply last_occurrence in E as [E _]; [|done..].
    apply (f_equal length) in E. rewrite !length_app in E. simpl in E. lia.
Qed.

Lemma re_search_uploads_None s :
  re_search_uploads s = None ↔ ∀ year month filename, ¬ uploads_shape s year month filename.
Proof.
  split.
  - intros H y m f Hs. apply re_search_uploads_shape in Hs. congruence.
  - intros H. destruct (re_search_uploads s) as [[[y m] f]|] eqn:E; [|done].
    apply re_search_uploads_Some in E. by destruct (H y m f).
Qed.

(** The identifier is the last segment of the URL without the extension
    that [re.sub] removes, behind the month and a slash when the URL is an
    upload. *)
Lemma public_id_parts url :
  ∃ bucket dir filename,
    (bucket = [] ∨ ∃ month, bucket = month ++ [slash]) ∧
    url = dir ++ filename ∧
    public_id url = bucket ++ re_sub_ext filename.
Proof.
  unfold public_id. destruct (re_search_uploads url) as [[[y m] f]|] eqn:E.
  - apply re_search_uploads_Some in E as [_ [pre ->]].
    exists (m ++ [slash]), (pre ++ uploads_dir ++ y ++ [slash] ++ m ++ [slash]), f.
    split; [right; by exists m|]. split; by rewrite <- !app_assoc.
  - destruct (last_piece_suffix url) as [dir E'].
    exists [], dir, (last_piece (split slash None url)). split; [by left|]. done.
Qed.

End DeriverFacts.

(** ** The extractor *)

Module ExtractorFacts.
Import PyStr PyStrFacts Xml Extractor.

Lemma parse_postmeta_other title post_name thumbnails postmeta :
  thumbnail_value postmeta = None →
  parse_postmeta title post_name thumbnails postmeta = thumbnails.
Proof.
  unfold thumbnail_value, parse_postmeta.
  destruct (find (wp "meta_key") postmeta) as [k|]; [|done].
  destruct (find (wp "meta_value") postmeta) as [v|];
    destruct (bool_decide (text k = Some thumbnail_key)); try done.
Qed.

Lemma parse_postmeta_untitled post_name thumbnails postmeta :
  parse_postmeta None post_name thumbnails postmeta = thumbnails.
Proof.
  unfold parse_postmeta.
  destruct (find (wp "meta_key") postmeta) as [k|]; [|done].
  destruct (bool_decide _); [|done].
  by destruct (find (wp "meta_value") postmeta).
Qed.

Lemma parse_postmeta_marker title post_name thumbnails postmeta value :
  thumbnail_value postmeta = Some value →
  parse_postmeta (Some title) post_name thumbnails postmeta =
  <[text title := value]>
    (match post_name with
     | Some post_name => <[text post_name := value]> thumbnails
     | None => thumbnails
     end).
Proof.
  unfold thumbnail_value, parse_postmeta.
  destruct (find (wp "meta_key") postmeta) as [k|]; [|done].
  destruct (find (wp "meta_value") postmeta) as [v|]; [|done].
  destruct (bool_decide (text k = Some thumbnail_key)); [|done].
  by intros [= <-].
Qed.

Lemma fold_postmeta_others title post_name thumbnails postmetas :
  Forall (fun pm => thumbnail_value pm = None) postmetas →
  fold_left (parse_postmeta title post_name) postmetas thumbnails = thumbnails.
Proof.
  intros H. revert thumbnails. induction H as [|pm l Hpm _ IH]; intros t; simpl; [done|].
  by rewrite parse_postmeta_other, IH.
Qed.

Lemma fold_postmeta_untitled post_name thumbnails postmetas :
  fold_left (parse_postmeta None post_name) postmetas thumbnails = thumbnails.
Proof.
  revert thumbnails. induction postmetas as [|pm l IH]; intros t; simpl; [done|].
  by rewrite parse_postmeta_untitled, IH.
Qed.

Lemma parse_item_post self item post_type :
  find (wp "post_type") item = Some post_type →
  text post_type = Some ("post" : str) →
  parse_item self item =
  set_post_thumbnails
    (fun thumbnails =>
       fold_left (parse_postmeta (find "title" item) (find (wp "post_name") item))
         (findall (wp "postmeta") item) thumbnails)
    self.
Proof. intros H1 H2. unfold parse_item. by rewrite H1, H2. Qed.

Lemma truthy_opt_Some (s : str) : s ≠ [] → truthy_opt (Some s) = true.
Proof. by destruct s. Qed.

Lemma table_get_bound (d : gmap (option str) (option str)) key value :
  d !! key = Some value → table_get d key = value.
Proof. unfold table_get. by intros ->. Qed.

Lemma post_slug_dated a b c rest :
  hyphen ∉ a → hyphen ∉ b → hyphen ∉ c →
  post_slug (a ++ hyphen :: b ++ hyphen :: c ++ hyphen :: rest) = rest.
Proof.
  intros Ha Hb Hc. unfold post_slug.
  assert (has_char hyphen (a ++ hyphen :: b ++ hyphen :: c ++ hyphen :: rest) = true) as ->.
  { apply has_char_true, elem_of_app. right. by left. }
  rewrite split_piece by done. cbn [fmap option_fmap option_map pred].
  rewrite split_piece by done. cbn [fmap option_fmap option_map pred].
  rewrite split_piece by done. cbn [fmap option_fmap option_map pred].
  by rewrite split_zero.
Qed.

Section WithYaml.
Variable yaml_safe_load : str → outcome yaml.
Variable yaml_dump : yaml → str.


Lemma dict_set_fresh key value entries :
  Yaml.has_key key entries = false →
  Yaml.dict_set key value entries = entries ++ [(YStr key, value)].
Proof.
  induction entries as [|[k v] entries IH]; [done|]. unfold Yaml.has_key. cbn.
  destruct (Yaml.is_str key k); [done|]. intros H. cbn. by rewrite IH.
Qed.

Lemma no_front_matter_map entries :
  entries ≠ [] → no_front_matter (Some (YMap entries)) = false.
Proof. by destruct entries. Qed.

Lemma contains_map key entries :
  Yaml.contains key (YMap entries) = Returned (Yaml.has_key key entries).
Proof. done. Qed.

Lemma has_key_not_nil key entries : Yaml.has_key key entries = true → entries ≠ [].
Proof. by destruct entries. Qed.

(** [update_post] on a post whose front matter is a mapping that is not
    empty and has none of the two keys. *)
Lemma update_post_resolves self post_path content entries body :
  extract_front_matter yaml_safe_load content = (Some (YMap entries), body) →
  entries ≠ [] →
  Yaml.has_key featured_image entries = false →
  Yaml.has_key image entries = false →
  update_post yaml_safe_load yaml_dump self post_path content =
  match get_thumbnail_url (found self) (post_slug (stem post_path))
          (Yaml.dict_get "title" (YStr []) entries) with
  | Raised e => raise (found self) e
  | Returned thumbnail_url =>
      if negb (truthy_opt thumbnail_url) then skip (found self)
      else
        {| extractor := updated (found self);
           written :=
             Some ((fence ++ [newline])
                   ++ yaml_dump
                        (YMap (entries ++
                               [(YStr featured_image,
                                 YStr (Deriver.public_id (default [] thumbnail_url)))]))
                   ++ (fence ++ [newline]) ++ body);
           result := Returned true |}
  end.
Proof.
  intros He Hn H1 H2. unfold update_post. rewrite He.
  rewrite (no_front_matter_map _ Hn). cbn [from_option id].
  rewrite !contains_map, H1, H2.
  destruct (get_thumbnail_url _ _ _) as [url|]; [|done].
  destruct (negb _); [done|]. by rewrite dict_set_fresh.
Qed.

Lemma update_post_featured self post_path content entries body :
  extract_front_matter yaml_safe_load content = (Some (YMap entries), body) →
  Yaml.has_key featured_image entries = true ∨ Yaml.has_key image entries = true →
  update_post yaml_safe_load yaml_dump self post_path content = skip (found self).
Proof.
  intros He Hk. unfold update_post. rewrite He.
  rewrite no_front_matter_map by (destruct Hk; by eapply has_key_not_nil).
  cbn [from_option id]. rewrite !contains_map.
  destruct (Yaml.has_key featured_image entries); [done|].
  destruct Hk as [?| ->]; done.
Qed.


End WithYaml.

End ExtractorFacts.

(** ** The auditor *)

Module AuditorFacts.
Import PyStr PyStrFacts Auditor.

(** A loop that ended ends the same way with more fuel. *)
Lemma fetch_pages_more fuel fuel' api n fetched cursor r :
  fetch_pages fuel api n fetched cursor = Some r → fuel ≤ fuel' →
  fetch_pages fuel' api n fetched cursor = Some r.
Proof.
  revert fuel' n fetched cursor.
  induction fuel as [|fuel IH]; intros fuel' n fetched cursor; [done|].
  intros H Hle. destruct fuel' as [|fuel']; [lia|].
  cbn [fetch_pages] in *.
  destruct (if Extractor.truthy_opt cursor then api n cursor else api n None) as [result|e];
    [|done].
  destruct (next_cursor result); [|done]. apply IH; [done | lia].
Qed.

Lemma references_of_add public_id k name d :
  references_of public_id (add_reference k name d)
  = references_of public_id d ++ (if bool_decide (k = public_id) then [name] else []).
Proof.
  induction d as [|[k' files] d IH]; cbn [add_reference references_of].
  - by destruct (bool_decide (k = public_id)).
  - destruct (bool_decide (k' = k)) eqn:E1; cbn [references_of].
    + apply bool_decide_eq_true in E1 as ->.
      destruct (bool_decide (k = public_id)); [done | by rewrite app_nil_r].
    + destruct (bool_decide (k' = public_id)) eqn:E2; [|done].
      apply bool_decide_eq_true in E2 as ->.
      apply bool_decide_eq_false in E1.
      rewrite bool_decide_eq_false_2 by congruence. by rewrite app_nil_r.
Qed.

Lemma references_of_fold name public_id matches self :
  references_of public_id (referenced_images (fold_left (record_match name) matches self))
  = references_of public_id (referenced_images self)
    ++ replicate (mentions public_id matches) name.
Proof.
  unfold mentions.
  revert self. induction matches as [|m matches IH]; intros self; cbn [fold_left List.filter].
  - by rewrite app_nil_r.
  - rewrite IH. cbn [record_match referenced_images]. rewrite references_of_add.
    rewrite <- app_assoc. f_equal.
    by destruct (bool_decide (strip strip_chars m = public_id)).
Qed.

Lemma fold_record_match_inventory name matches self :
  cloudinary_images (fold_left (record_match name) matches self) = cloudinary_images self.
Proof. revert self. induction matches as [|m l IH]; intros self; [done|]. cbn. by rewrite IH. Qed.

Lemma fold_record_match_missing name matches self :
  missing_images (fold_left (record_match name) matches self) = missing_images self.
Proof. revert self. induction matches as [|m l IH]; intros self; [done|]. cbn. by rewrite IH. Qed.

Lemma extract_inventory posts self :
  cloudinary_images (extract_cloudinary_references posts self) = cloudinary_images self.
Proof.
  unfold extract_cloudinary_references. revert self.
  induction posts as [|p l IH]; intros self; [done|]. cbn [fold_left]. rewrite IH.
  unfold scan_post. by rewrite fold_record_match_inventory.
Qed.

Lemma extract_missing posts self :
  missing_images (extract_cloudinary_references posts self) = missing_images self.
Proof.
  unfold extract_cloudinary_references. revert self.
  induction posts as [|p l IH]; intros self; [done|]. cbn [fold_left]. rewrite IH.
  unfold scan_post. by rewrite fold_record_match_missing.
Qed.

Lemma find_unused_inventory self :
  cloudinary_images (find_unused_images self) = cloudinary_images self.
Proof. unfold find_unused_images. by destruct (bool_decide _). Qed.

Lemma find_unused_missing self :
  missing_images (find_unused_images self) = missing_images self.
Proof. unfold find_unused_images. by destruct (bool_decide _). Qed.

Lemma elem_of_keys id (d : list (str * list str)) :
  id ∈ keys d ↔ ∃ files, (id, files) ∈ d.
Proof.
  unfold keys. rewrite elem_of_list_to_set, list_elem_of_fmap. split.
  - intros ([k files] & -> & H). by exists files.
  - intros (files & H). by exists (id, files).
Qed.

Lemma elem_of_missing id referenced inventory :
  id ∈ (missing referenced inventory).*1 ↔ id ∈ keys referenced ∧ id ∉ inventory.
Proof.
  unfold missing. rewrite list_elem_of_fmap, elem_of_keys. split.
  - intros ([k files] & -> & H). apply list_elem_of_In, filter_In in H as [H1 H2].
    apply bool_decide_eq_true in H2. split; [|done].
    exists files. by apply list_elem_of_In.
  - intros [[files H1] H2]. exists (id, files). split; [done|].
    apply list_elem_of_In, filter_In. split; [by apply list_elem_of_In|].
    by apply bool_decide_eq_true.
Qed.

Lemma sorted_elements (s : gset str) : list_to_set (sorted s) = s.
Proof.
  apply set_eq. intros x. unfold sorted.
  rewrite elem_of_list_to_set, merge_sort_Permutation. apply elem_of_elements.
Qed.

Lemma unused_images_fresh self :
  unused_images self = [] →
  list_to_set (unused_images (find_unused_images self))
  = unused (referenced_images self) (cloudinary_images self).
Proof.
  intros H. unfold find_unused_images.
  destruct (bool_decide _) eqn:E.
  - apply bool_decide_eq_true in E. rewrite E, H. done.
  - cbn [unused_images]. apply sorted_elements.
Qed.

End AuditorFacts.

(** * The statements of the design document *)

Import PyStr PyStrFacts.

(** ** Legacy export parser *)

(** C1, as the code has it.  A post record that has a title element and a
    featured-image entry with a value binds the title key to the value of the
    last such entry, and the slug key too when the record has a slug.  The two
    bindings are not independent: a record without a title element binds
    nothing, whether it has a slug or not. *)
Theorem parse_item_binds_by_title (self : Extractor) (item post_type marker : Xml.element)
    (before after : list Xml.element) (value : option str) :
  Xml.find (Xml.wp "post_type") item = Some post_type →
  Xml.text post_type = Some ("post" : str) →
  Xml.findall (Xml.wp "postmeta") item = before ++ marker :: after →
  Extractor.thumbnail_value marker = Some value →
  Forall (fun pm => Extractor.thumbnail_value pm = None) after →
  (∀ title, Xml.find "title" item = Some title →
     post_thumbnails (Extractor.parse_item self item) !! Xml.text title = Some value ∧
     ∀ post_name, Xml.find (Xml.wp "post_name") item = Some post_name →
       post_thumbnails (Extractor.parse_item self item) !! Xml.text post_name = Some value)
  ∧ (Xml.find "title" item = None → Extractor.parse_item self item = self).
Proof.
  intros Ht Hp Hm Hv Ha. rewrite (ExtractorFacts.parse_item_post _ _ _ Ht Hp). split.
  - intros title ->. unfold Extractor.set_post_thumbnails. cbn [post_thumbnails].
    rewrite Hm, fold_left_app. cbn [fold_left].
    rewrite (ExtractorFacts.parse_postmeta_marker _ _ _ _ _ Hv).
    rewrite (ExtractorFacts.fold_postmeta_others _ _ _ _ Ha).
    split; [apply lookup_insert_eq|].
    intros post_name ->.
    destruct (decide (Xml.text title = Xml.text post_name)) as [->|Hne].
    + apply lookup_insert_eq.
    + rewrite lookup_insert_ne by done. apply lookup_insert_eq.
  - intros ->. destruct self as [atts thumbs n1 n2 n3 errs].
    unfold Extractor.set_post_thumbnails. cbn [post_thumbnails].
    by rewrite ExtractorFacts.fold_postmeta_untitled.
Qed.

Lemma parse_item_binds_by_title_witness :
  post_thumbnails (Extractor.parse_item Extractor.init Inputs.launch_post)
    !! Some ("Launch Day" : str) = Some (Some ("42" : str)) ∧
  post_thumbnails (Extractor.parse_item Extractor.init Inputs.launch_post)
    !! Some ("launch-day" : str) = Some (Some ("42" : str)).
Proof.
  destruct (parse_item_binds_by_title Extractor.init Inputs.launch_post
              (Inputs.leaf (Xml.wp "post_type") "post")
              (Inputs.postmeta "_thumbnail_id" "42")
              [Inputs.postmeta "_edit_last" "1"] [] (Some ("42" : str)))
    as [H _]; [reflexivity..| by constructor |].
  destruct (H (Inputs.leaf "title" "Launch Day")) as [H1 H2]; [reflexivity|].
  split; [exact H1|].
  exact (H2 (Inputs.leaf (Xml.wp "post_name") "launch-day") eq_refl).
Defined.

(** The slug is not bound on its own: the post of [untitled_export] has a
    slug and a featured-image entry with the value 42, and no title element;
    the parser leaves the table of bindings empty. *)
Lemma untitled_post_binds_nothing :
  Extractor.thumbnail_value (Inputs.postmeta "_thumbnail_id" "42") = Some (Some ("42" : str)) ∧
  Xml.find (Xml.wp "post_name") Inputs.untitled_post
    = Some (Inputs.leaf (Xml.wp "post_name") "hello-world") ∧
  post_thumbnails (Extractor.parse_xml Inputs.untitled_export Extractor.init)
    !! Some ("hello-world" : str) = None ∧
  post_thumbnails (Extractor.parse_xml Inputs.untitled_export Extractor.init) = ∅.
Proof. repeat split; by vm_compute. Qed.

(** ** Featured-asset resolver *)

(** C4, as the code has it.  When the slug key is bound to an attachment id
    that is not empty, the resolver returns what [attachments] holds for that
    id, whatever the title is.  The title binding is used when the lookup of
    the slug gives nothing true: the key is absent, or bound to [None] or to
    the empty string. *)
Theorem get_thumbnail_url_priority (self : Extractor) (post_slug : str) :
  (∀ slug_id, post_thumbnails self !! Some post_slug = Some (Some slug_id) →
     slug_id ≠ [] →
     ∀ post_title,
       Extractor.get_thumbnail_url self post_slug post_title
       = Returned (Extractor.table_get (attachments self) (Some slug_id)))
  ∧ (Extractor.truthy_opt (Extractor.table_get (post_thumbnails self) (Some post_slug)) = false →
     ∀ title title_id,
       post_thumbnails self !! Some title = Some (Some title_id) →
       title_id ≠ [] →
       Extractor.get_thumbnail_url self post_slug (YStr title)
       = Returned (Extractor.table_get (attachments self) (Some title_id))).
Proof.
  split.
  - intros slug_id Hs Hs' post_title. unfold Extractor.get_thumbnail_url.
    rewrite (ExtractorFacts.table_get_bound _ _ _ Hs). cbv zeta.
    rewrite (ExtractorFacts.truthy_opt_Some _ Hs'). cbn [negb].
    by rewrite (ExtractorFacts.truthy_opt_Some _ Hs').
  - intros Hf title title_id Ht Hne. unfold Extractor.get_thumbnail_url. cbv zeta.
    rewrite Hf. cbn [negb Extractor.table_get_value].
    by rewrite (ExtractorFacts.table_get_bound _ _ _ Ht), (ExtractorFacts.truthy_opt_Some _ Hne).
Qed.

Lemma get_thumbnail_url_priority_witness :
  Extractor.get_thumbnail_url Inputs.slug_and_title_bound "launch-day" (YStr "Launch Day")
  = Returned (Extractor.table_get (attachments Inputs.slug_and_title_bound)
                (Some ("42" : str))).
Proof.
  refine (proj1 (get_thumbnail_url_priority Inputs.slug_and_title_bound "launch-day")
            "42" _ _ (YStr "Launch Day")).
  - by vm_compute.
  - discriminate.
Defined.

(** A slug key that is present does not always win.  In
    [empty_slug_binding] the slug key and the title key are both present,
    with the empty id and the id 42; the resolver returns the URL of
    attachment 42, reached through the title, while the slug binding leads to
    no attachment.  The table parsed from [empty_marker_export] has the slug
    key bound to [None], the text of an empty [wp:meta_value], and the
    resolver again answers through the title. *)
Lemma empty_slug_binding_falls_back :
  (post_thumbnails Inputs.empty_slug_binding !! Some ("launch-day" : str)
     = Some (Some ([] : str)) ∧
   post_thumbnails Inputs.empty_slug_binding !! Some ("Launch Day" : str)
     = Some (Some ("42" : str)) ∧
   Extractor.table_get (attachments Inputs.empty_slug_binding) (Some ([] : str)) = None ∧
   Extractor.get_thumbnail_url Inputs.empty_slug_binding "launch-day" (YStr "Launch Day")
     = Returned (Some Inputs.hero_url))
  ∧
  (let parsed := Extractor.parse_xml Inputs.empty_marker_export Extractor.init in
   post_thumbnails parsed !! Some ("launch-day" : str) = Some None ∧
   post_thumbnails parsed !! Some ("Launch Day" : str) = Some (Some ("42" : str)) ∧
   Extractor.get_thumbnail_url parsed "launch-day" (YStr "Launch Day")
     = Returned (Some Inputs.hero_url)).
Proof. repeat split; by vm_compute. Qed.

(** ** Canonical identifier deriver *)

(** C5, as the code has it.  The structured shape is recognised directly
    under the uploads directory only: a URL that ends in
    [/wp-content/uploads/<4 digits>/<2 digits>/<filename>] gives
    [<month>/<basename>]; every other URL gives the basename of its last
    segment, with no bucket.  The basename is the file name without the
    extension that ends it, whatever its case; a file name without one, and
    without a newline, is its own basename. *)
Theorem public_id_by_shape (url : str) :
  (∀ year month filename,
     Deriver.uploads_shape url year month filename →
     Deriver.public_id url = month ++ [slash] ++ Deriver.re_sub_ext filename)
  ∧ ((∀ year month filename, ¬ Deriver.uploads_shape url year month filename) →
     Deriver.public_id url = Deriver.re_sub_ext (last_piece (split slash None url)))
  ∧ (∀ base e, Deriver.is_extension e = true → Deriver.re_sub_ext (base ++ dot :: e) = base)
  ∧ (∀ filename, Deriver.has_extension filename = false → newline ∉ filename →
       Deriver.re_sub_ext filename = filename).
Proof.
  split; [|split; [|split]].
  - intros year month filename H. unfold Deriver.public_id.
    by rewrite (DeriverFacts.re_search_uploads_shape _ _ _ _ H).
  - intros H. unfold Deriver.public_id.
    by rewrite (proj2 (DeriverFacts.re_search_uploads_None _) H).
  - intros base e He. rewrite <- (app_nil_r e) at 1.
    rewrite (DeriverFacts.re_sub_ext_match base e []) by done. apply app_nil_r.
  - apply DeriverFacts.re_sub_ext_plain.
Qed.

Lemma public_id_by_shape_witness :
  Deriver.public_id "https://old.example/wp-content/uploads/2021/07/cover.JPG"
  = ("07" : str) ++ [slash] ++ Deriver.re_sub_ext "cover.JPG".
Proof.
  apply (proj1 (public_id_by_shape "https://old.example/wp-content/uploads/2021/07/cover.JPG")
           "2021" "07" "cover.JPG").
  split; [repeat split; done|]. by exists ("https://old.example" : str).
Defined.

(** The year, month and file shape alone is not enough: this URL ends in a
    four-digit segment, a two-digit segment and a file name, outside the
    uploads directory, and its identifier has no month. *)
Lemma dated_path_outside_uploads :
  Deriver.legacy_shape "https://host/img/2021/07/cover.JPG" "2021" "07" "cover.JPG" ∧
  Deriver.public_id "https://host/img/2021/07/cover.JPG" = "cover".
Proof.
  split; [|reflexivity]. split.
  - repeat split; done.
  - by exists ("https://host/img" : str).
Qed.

(** C6, as the code has it.  One extension is removed, the last: the
    identifier of a URL that does not end in two stacked extensions ends in
    none of the five extensions, in any case; of two stacked extensions the
    first stays. *)
Theorem public_id_strips_last_extension (url : str) :
  (Deriver.has_stacked_extensions url = false →
   Deriver.has_extension (Deriver.public_id url) = false)
  ∧ (∀ base e1 e2,
       Deriver.is_extension e1 = true → Deriver.is_extension e2 = true →
       Deriver.re_sub_ext (base ++ dot :: e1 ++ dot :: e2) = base ++ dot :: e1).
Proof.
  split.
  - intros Hs. destruct (Deriver.has_extension (Deriver.public_id url)) eqn:Hx; [|done].
    exfalso. apply DeriverFacts.has_extension_true in Hx as (base & e & Hid & He).
    destruct (DeriverFacts.public_id_parts url) as (bucket & dir & f & Hb & -> & Hp).
    rewrite Hp in Hid.
    destruct (DeriverFacts.re_sub_ext_cases f) as [(b & e2 & rest & -> & He2 & D & Hr)|[Hr Hn]].
    + rewrite Hr in Hid. apply at_dollar_true in D as [->| ->].
      * rewrite app_nil_r in Hid.
        destruct (DeriverFacts.extension_after_bucket _ _ _ _ Hb He Hid) as [b' ->].
        rewrite DeriverFacts.has_stacked_extensions_true in Hs; [done|].
        exists (dir ++ b'), e, e2. rewrite app_nil_r. by rewrite <- !app_assoc.
      * destruct e as [|c e _] using rev_ind.
        -- by vm_compute in He.
        -- rewrite !app_assoc in Hid. rewrite app_comm_cons, !app_assoc in Hid.
           apply app_inj_tail in Hid as [_ <-].
           apply (DeriverFacts.extension_chars _ newline He); [auto|].
           apply elem_of_app. right. by left.
    + rewrite Hr in Hid.
      destruct (DeriverFacts.extension_after_bucket _ _ _ _ Hb He Hid) as [b' ->].
      apply (Hn b' e []); [done..|]. by rewrite app_nil_r.
  - intros base e1 e2 H1 H2.
    pose proof (DeriverFacts.re_sub_ext_match (base ++ dot :: e1) e2 [] H2 eq_refl) as H.
    rewrite !app_nil_r, <- app_assoc in H. exact H.
Qed.

Lemma public_id_strips_last_extension_witness :
  Deriver.has_extension
    (Deriver.public_id "https://old.example/wp-content/uploads/2021/07/cover.JPG") = false.
Proof.
  apply (proj1 (public_id_strips_last_extension
                  "https://old.example/wp-content/uploads/2021/07/cover.JPG")).
  reflexivity.
Defined.

(** An extension can end an identifier: of two stacked extensions the first
    survives. *)
Lemma stacked_extension_survives :
  Deriver.public_id "https://old.example/wp-content/uploads/2021/07/photo.jpg.png"
  = "07/photo.jpg" ∧
  Deriver.has_extension
    (Deriver.public_id "https://old.example/wp-content/uploads/2021/07/photo.jpg.png") = true.
Proof. split; reflexivity. Qed.

(** ** Front-matter mutator *)

(** C7.  A document whose front matter is a mapping that has one of the two
    keys [featured_image] and [image] is skipped: [update_post] returns
    [False] and writes nothing, so the file keeps its bytes. *)
Theorem update_post_skips_featured (yaml_safe_load : str → outcome yaml)
    (yaml_dump : yaml → str) (self : Extractor) (post_path : Path) (content : str)
    (entries : list (yaml * yaml)) (body : str) :
  Extractor.extract_front_matter yaml_safe_load content = (Some (YMap entries), body) →
  Yaml.has_key Extractor.featured_image entries = true
  ∨ Yaml.has_key Extractor.image entries = true →
  let r := Extractor.update_post yaml_safe_load yaml_dump self post_path content in
  Extractor.written r = None ∧
  Extractor.result r = Returned false ∧
  Extractor.extractor r = Extractor.skipped (Extractor.found self).
Proof.
  intros He Hk. cbv zeta.
  by rewrite (ExtractorFacts.update_post_featured _ _ _ _ _ _ _ He Hk).
Qed.

Lemma update_post_skips_featured_witness :
  Extractor.written
    (Extractor.update_post FlatYaml.safe_load FlatYaml.dump Extractor.init
       Inputs.launch_path Inputs.featured_document) = None.
Proof.
  refine (proj1 (update_post_skips_featured FlatYaml.safe_load FlatYaml.dump Extractor.init
                   Inputs.launch_path Inputs.featured_document
                   [(YStr "title", YStr "Launch Day"); (YStr "image", YStr "03/other")]
                   (("Body of the post." : str) ++ Inputs.nl) _ _)).
  - reflexivity.
  - right. reflexivity.
Defined.



(** C10.  For a document that passes the skip rules, [update_post] is what
    follows from the answer of the resolver for the slug [post_slug] of the
    stem and the title of the front matter.  That slug is the stem when the
    stem has no hyphen, and else the last piece of the stem split at its
    first three hyphens at most: what follows a prefix of three pieces
    without a hyphen, such as a date. *)
Theorem post_slug_from_stem (yaml_safe_load : str → outcome yaml) (yaml_dump : yaml → str)
    (self : Extractor) (post_path : Path) (content : str)
    (entries : list (yaml * yaml)) (body : str) :
  Extractor.extract_front_matter yaml_safe_load content = (Some (YMap entries), body) →
  entries ≠ [] →
  Yaml.has_key Extractor.featured_image entries = false →
  Yaml.has_key Extractor.image entries = false →
  Extractor.update_post yaml_safe_load yaml_dump self post_path content
  = match Extractor.get_thumbnail_url (Extractor.found self)
            (Extractor.post_slug (stem post_path))
            (Yaml.dict_get "title" (YStr []) entries) with
    | Raised e => Extractor.raise (Extractor.found self) e
    | Returned thumbnail_url =>
        if negb (Extractor.truthy_opt thumbnail_url)
        then Extractor.skip (Extractor.found self)
        else
          {| Extractor.extractor := Extractor.updated (Extractor.found self);
             Extractor.written :=
               Some ((Extractor.fence ++ [newline])
                     ++ yaml_dump
                          (YMap (entries ++
                                 [(YStr Extractor.featured_image,
                                   YStr (Deriver.public_id (default [] thumbnail_url)))]))
                     ++ (Extractor.fence ++ [newline]) ++ body);
             Extractor.result := Returned true |}
    end
  ∧ (has_char hyphen (stem post_path) = false →
     Extractor.post_slug (stem post_path) = stem post_path)
  ∧ (has_char hyphen (stem post_path) = true →
     Extractor.post_slug (stem post_path)
     = last_piece (split hyphen (Some 3) (stem post_path)))
  ∧ (∀ a b c rest,
       stem post_path = a ++ hyphen :: b ++ hyphen :: c ++ hyphen :: rest →
       hyphen ∉ a → hyphen ∉ b → hyphen ∉ c →
       Extractor.post_slug (stem post_path) = rest).
Proof.
  intros He Hn H1 H2. split; [|split; [|split]].
  - by apply ExtractorFacts.update_post_resolves.
  - intros H. unfold Extractor.post_slug. by rewrite H.
  - intros H. unfold Extractor.post_slug. by rewrite H.
  - intros a b c rest -> Ha Hb Hc. by apply ExtractorFacts.post_slug_dated.
Qed.

Lemma post_slug_from_stem_witness :
  Extractor.post_slug (stem Inputs.launch_path) = "launch-day".
Proof.
  destruct (post_slug_from_stem FlatYaml.safe_load FlatYaml.dump Extractor.init
              Inputs.launch_path Inputs.launch_document
              [(YStr "title", YStr "Launch Day"); (YStr "layout", YStr "post")]
              (("Body of the post." : str) ++ Inputs.nl))
    as (_ & _ & _ & H); [reflexivity | discriminate | reflexivity | reflexivity |].
  apply (H "2024" "05" "01" "launch-day"); [reflexivity | | | ];
    apply (bool_decide_unpack _); vm_compute; exact I.
Defined.

(** ** Remote inventory fetcher *)

(** C2, as the code has it.  When a page request raises, the loop stops and
    the pages fetched so far are dropped: the auditor keeps the inventory it
    had, which is empty on a new auditor.  The failure is caught inside
    [fetch_cloudinary_assets] and is not raised: [run] goes on and reports
    against that inventory. *)
Theorem fetch_failure_is_swallowed (fuel : nat) (api : Auditor.remote) (self : Auditor)
    (posts : list (str * str)) (e : exn) :
  Auditor.fetch_pages fuel api 0 [] None = Some (Raised e) →
  (∀ fuel', fuel ≤ fuel' → Auditor.fetch_cloudinary_assets fuel' api self = Some self)
  ∧ ∃ report,
      Auditor.run fuel api posts self = Some (Returned report) ∧
      cloudinary_images report = cloudinary_images self ∧
      missing_images report
      = missing_images self
        ++ Auditor.missing (referenced_images (Auditor.extract_cloudinary_references posts self))
             (cloudinary_images self).
Proof.
  intros H. split.
  - intros fuel' Hle. unfold Auditor.fetch_cloudinary_assets.
    by rewrite (AuditorFacts.fetch_pages_more _ _ _ _ _ _ _ H Hle).
  - unfold Auditor.run, Auditor.fetch_cloudinary_assets. rewrite H.
    eexists. split; [done|].
    rewrite AuditorFacts.find_unused_inventory, AuditorFacts.find_unused_missing.
    unfold Auditor.find_missing_images. cbn [cloudinary_images missing_images referenced_images].
    by rewrite AuditorFacts.extract_inventory, AuditorFacts.extract_missing.
Qed.

Lemma fetch_failure_is_swallowed_witness :
  Auditor.fetch_cloudinary_assets 7 Inputs.failing_remote Auditor.init = Some Auditor.init.
Proof.
  destruct (fetch_failure_is_swallowed 2 Inputs.failing_remote Auditor.init
              [Inputs.once_post] TransportError) as [H _]; [reflexivity|].
  apply H. lia.
Defined.

(** The failure does not reach the caller: the second request of
    [failing_remote] raises, after a first page that lists the hero image.
    [run] returns a report all the same; it is computed against an empty
    inventory and gives the hero image as missing. *)
Lemma failed_fetch_audits_empty_inventory :
  Auditor.fetch_pages 2 Inputs.failing_remote 0 [] None = Some (Raised TransportError) ∧
  ∃ report,
    Auditor.run 2 Inputs.failing_remote [Inputs.once_post] Auditor.init
      = Some (Returned report) ∧
    cloudinary_images report = ∅ ∧
    missing_images report = [("03/hero" : str, [("once.md" : str)])].
Proof. split; [by vm_compute|]. eexists. split; [reflexivity|]. split; by vm_compute. Qed.

(** ** Reference extractor *)

(** C3, as the code has it.  Scanning a post appends the name of the post to
    the documents of an identifier once for each match of that identifier in
    the post; the documents recorded before come first, unchanged.  Nothing
    is folded. *)
Theorem scan_post_appends_per_match (self : Auditor) (name content public_id : str) :
  Auditor.references_of public_id (referenced_images (Auditor.scan_post self (name, content)))
  = Auditor.references_of public_id (referenced_images self)
    ++ replicate (Auditor.mentions public_id (Auditor.findall 0 content)) name.
Proof.
  unfold Auditor.scan_post. cbn [fst snd]. by rewrite AuditorFacts.references_of_fold.
Qed.

(** A post that mentions an image twice is recorded twice for it. *)
Lemma twice_post_recorded_twice :
  referenced_images (Auditor.extract_cloudinary_references [Inputs.twice_post] Auditor.init)
  = [("03/hero" : str, [("twice.md" : str); ("twice.md" : str)])].
Proof. by vm_compute. Qed.

(** ** Reconciliation engine *)

(** C9.  On an auditor whose two reports are still empty, the missing
    identifiers that [find_missing_images] reports are the referenced ones
    that are not in the inventory, and the unused ones that
    [find_unused_images] reports are those of the inventory that are not
    referenced, both by equality of strings: missing and inventory are
    disjoint, unused and referenced are disjoint, and missing together with
    the referenced identifiers of the inventory is all that is referenced. *)
Theorem reconciliation_laws (self : Auditor) :
  missing_images self = [] →
  unused_images self = [] →
  let report := Auditor.find_unused_images (Auditor.find_missing_images self) in
  let referenced := Auditor.keys (referenced_images self) in
  let inventory := cloudinary_images self in
  let missing : gset str := list_to_set (missing_images report).*1 in
  let unused : gset str := list_to_set (unused_images report) in
  missing ∩ inventory = ∅ ∧
  unused ∩ referenced = ∅ ∧
  missing ∪ (referenced ∩ inventory) = referenced ∧
  (∀ id, id ∈ missing ↔ id ∈ referenced ∧ id ∉ inventory) ∧
  (∀ id, id ∈ unused ↔ id ∈ inventory ∧ id ∉ referenced).
Proof.
  intros Hm Hu report referenced inventory missing unused.
  assert (∀ id, id ∈ missing ↔ id ∈ referenced ∧ id ∉ inventory) as HM.
  { intros id. unfold missing, report.
    rewrite AuditorFacts.find_unused_missing. unfold Auditor.find_missing_images.
    cbn [missing_images]. rewrite Hm, app_nil_l, elem_of_list_to_set.
    apply AuditorFacts.elem_of_missing. }
  assert (∀ id, id ∈ unused ↔ id ∈ inventory ∧ id ∉ referenced) as HU.
  { intros id. unfold unused, report.
    rewrite AuditorFacts.unused_images_fresh by done.
    unfold Auditor.unused. cbn [referenced_images cloudinary_images Auditor.find_missing_images].
    apply elem_of_difference. }
  split; [|split; [|split; [|by split]]]; apply set_eq; intros id.
  - rewrite elem_of_intersection, HM, elem_of_empty. tauto.
  - rewrite elem_of_intersection, HU, elem_of_empty. tauto.
  - rewrite elem_of_union, elem_of_intersection, HM.
    destruct (decide (id ∈ inventory)); tauto.
Qed.

Lemma reconciliation_laws_witness :
  let report :=
    Auditor.find_unused_images
      (Auditor.find_missing_images Inputs.mixed_case_audit) in
  (list_to_set (missing_images report).*1 : gset str) ∩ cloudinary_images Inputs.mixed_case_audit
  = ∅.
Proof.
  exact (proj1 (reconciliation_laws Inputs.mixed_case_audit eq_refl eq_refl)).
Defined.

(** ** Runs on the examples *)

Example public_id_structured :
  Deriver.public_id "https://old.example/wp-content/uploads/2021/07/cover.JPG" = "07/cover".
Proof. reflexivity. Qed.

Example public_id_fallback : Deriver.public_id "https://host/img/logo.png" = "logo".
Proof. reflexivity. Qed.

(** The extension before a final newline is removed too, and the newline
    stays. *)
Example public_id_final_newline :
  Deriver.public_id (("https://host/img/logo.png" : str) ++ Inputs.nl)
  = ("logo" : str) ++ Inputs.nl.
Proof. reflexivity. Qed.

(** The post of the hero image gets its identifier, and is skipped when
    [update_post] runs on what it wrote. *)
Example update_then_skip :
  let self := Extractor.parse_xml Inputs.launch_export Extractor.init in
  let first :=
    Extractor.update_post FlatYaml.safe_load FlatYaml.dump self Inputs.launch_path
      Inputs.launch_document in
  Extractor.written first = Some Inputs.rewritten_document ∧
  Extractor.written
    (Extractor.update_post FlatYaml.safe_load FlatYaml.dump (Extractor.extractor first)
       Inputs.launch_path Inputs.rewritten_document) = None.
Proof. split; by vm_compute. Qed.

(** A stem without a date loses what stands before its last hyphen. *)
Example post_slug_undated : Extractor.post_slug "launch-day" = "day".
Proof. reflexivity. Qed.

(** Identifiers that differ by the case only are different: each is reported,
    one as missing and the other as unused. *)
Example reconciliation_is_case_sensitive :
  let report :=
    Auditor.find_unused_images (Auditor.find_missing_images Inputs.mixed_case_audit) in
  missing_images report = [("03/hero" : str, [("once.md" : str)])] ∧
  unused_images report = [("03/Hero" : str)].
Proof. split; by vm_compute. Qed.

(** Two pages are fetched to the end. *)
Example fetch_two_pages :
  cloudinary_images <$> Auditor.fetch_cloudinary_assets 2 Inputs.two_page_remote Auditor.init
  = Some (list_to_set [("03/hero" : str); ("logo" : str)]).
Proof. by vm_compute. Qed.
